(** * nomnemonic: deterministic BIP39 mnemonic generation

    A shallow embedding of [nomnemonic.go] and the properties of its
    specification.

    Conventions of the embedding:
    - a Go [int] is a [Z] (the 64-bit range is never approached by the values
      the program computes; where the Go library checks a range, the check is
      written out);
    - a Go [byte] is a [Z] in [0, 256), with its wrap-around written as
      [wrap8];
    - a Go [string] is a [string], whose characters are bytes, so that [len]
      is [String.length]; a [range] over a string decodes it into runes;
    - a run-time panic (index or slice out of range) is the outcome [Panics];
    - a Go result pair [(v, err)] is a pair whose second component is an
      [option error], [None] standing for [nil];
    - the functions of [strconv], [fmt] and [golang.org/x/crypto] the program
      calls are written after their library sources and documentation. *)

From Stdlib Require Import ZArith Ascii String.
From stdpp Require Import gmap strings list pretty.

Open Scope Z_scope.

(** ** Outcomes: normal return or run-time panic *)

Inductive outcome (A : Type) : Type :=
  | Returns (a : A)
  | Panics.
Arguments Returns {A} a.
Arguments Panics {A}.

Definition obind {A B : Type} (f : A → outcome B) (o : outcome A) : outcome B :=
  match o with
  | Returns a => f a
  | Panics => Panics
  end.

#[global] Instance outcome_ret : MRet outcome := λ A a, Returns a.
#[global] Instance outcome_bind : MBind outcome := λ A B f o, obind f o.

(** A loop threading a state through the elements of a list. *)
Fixpoint foldM {A S : Type} (f : S → A → outcome S) (st : S) (l : list A)
  : outcome S :=
  match l with
  | [] => Returns st
  | x :: l' => st' ← f st x; foldM f st' l'
  end.

(** ** Errors

    The program builds its errors with [errors.New] and [fmt.Errorf]; one
    constructor stands for each construction site and [error_message], further
    down, renders the message the site formats. *)

Inductive error : Type :=
  | WordlistSizeError
  | IdentifierTooShort
  | PasswordTooShort
  | PasscodeWrongLength
  | PasscodeNotNumeric (passcode : string)
  | UnsupportedStrength (s : Z)
  | UnrecognizedWord (w : string)
  | InvalidChecksum.

#[global] Instance error_eq_dec : EqDecision error.
Proof. solve_decision. Defined.

(** ** Constants *)

Definition _bitChunkSizeOneByte : Z := 8.
Definition _bitChunkSizeBip39WordIndex : Z := 11.
Definition _bitChunkSizeEntropy : Z := 32.

Definition _saltPrefixMnemonic : string := "mnemonic".
Definition _saltPrefixPassword : string := "pwd".
Definition _saltPrefixPasscode : string := "code".

Definition _inputIdentifierMinLength : Z := 2.
Definition _inputPasscodeLength : Z := 6.
Definition _inputPasswordMinLength : Z := 12.

(** [map[int]struct{}]: only the keys matter. *)
Definition _strengths : gmap Z () :=
  <[256:=()]> (<[224:=()]> (<[192:=()]> (<[160:=()]> (<[128:=()]> ∅)))).

Definition _sentenceStrengths : gmap Z Z :=
  <[24:=256]> (<[21:=224]> (<[18:=192]> (<[15:=160]> (<[12:=128]> ∅)))).

(** Reading a Go map at a missing key yields the zero value. *)
Definition map_get {K : Type} `{Countable K} (m : gmap K Z) (k : K) : Z :=
  default 0 (m !! k).

(** ** Bytes, strings, slices *)

Definition wrap8 (z : Z) : Z := z `mod` 256.

Definition is_byte (z : Z) : Prop := 0 ≤ z < 256.

Definition len (s : string) : Z := Z.of_nat (String.length s).

Definition code (c : ascii) : Z := Z.of_nat (nat_of_ascii c).

(** [[]byte(s)] *)
Fixpoint bytes_of_string (s : string) : list Z :=
  match s with
  | EmptyString => []
  | String c s' => code c :: bytes_of_string s'
  end.

Fixpoint str_take (n : nat) (s : string) : string :=
  match n, s with
  | S n', String c s' => String c (str_take n' s')
  | _, _ => EmptyString
  end.

Fixpoint str_drop (n : nat) (s : string) : string :=
  match n, s with
  | S n', String _ s' => str_drop n' s'
  | _, _ => s
  end.

#[global] Arguments str_take !_ !_ / : simpl nomatch.
#[global] Arguments str_drop !_ !_ / : simpl nomatch.

(** [s[lo:hi]]: panics unless [0 <= lo <= hi <= len(s)]. *)
Definition str_slice (s : string) (lo hi : Z) : outcome string :=
  if bool_decide (0 ≤ lo ∧ lo ≤ hi ∧ hi ≤ len s)
  then Returns (str_take (Z.to_nat (hi - lo)) (str_drop (Z.to_nat lo) s))
  else Panics.

(** [a[i]] on a slice. *)
Definition index {A : Type} (a : list A) (i : Z) : outcome A :=
  if bool_decide (0 ≤ i)
  then match a !! Z.to_nat i with
       | Some x => Returns x
       | None => Panics
       end
  else Panics.

(** [a[i] = x] on a slice. *)
Definition store {A : Type} (a : list A) (i : Z) (x : A) : outcome (list A) :=
  if bool_decide (0 ≤ i ∧ i < Z.of_nat (length a))
  then Returns (<[Z.to_nat i := x]> a)
  else Panics.

(** [make([]T, n)] with the zero value [z]: panics for a negative [n]. *)
Definition make {A : Type} (z : A) (n : Z) : outcome (list A) :=
  if bool_decide (0 ≤ n) then Returns (replicate (Z.to_nat n) z) else Panics.

(** ** The [fmt] verbs the program uses *)

Fixpoint pos_bin (p : positive) (acc : string) : string :=
  match p with
  | xH => String "1" acc
  | xO p' => pos_bin p' (String "0" acc)
  | xI p' => pos_bin p' (String "1" acc)
  end.

(** The binary digits of a natural number, without sign or padding. *)
Definition bin_digits (n : Z) : string :=
  match n with
  | Zpos p => pos_bin p ""
  | Zneg p => pos_bin p ""
  | Z0 => "0"
  end.

Fixpoint zeros (n : nat) : string :=
  match n with
  | O => ""
  | S n' => String "0" (zeros n')
  end.

Definition pad_zeros (width : nat) (digits : string) : string :=
  zeros (width - String.length digits) +:+ digits.

(** [fmt.Sprintf("%0<w>b", n)]: zero padding fills the width up, the sign of
    a negative number taking one of its columns. *)
Definition sprintf_0b (width : nat) (n : Z) : string :=
  if bool_decide (n < 0)
  then "-" +:+ pad_zeros (width - 1) (bin_digits n)
  else pad_zeros width (bin_digits n).

(** [fmt.Sprintf("%d", n)] *)
Definition sprintf_d (n : Z) : string := pretty n.

(** ** [strconv] *)

Inductive NumError : Type := ErrSyntax | ErrRange.

Definition maxUint64 : Z := 2 ^ 64 - 1.

(** The value of a digit or letter, as [ParseUint] reads it. *)
Definition digit_val (c : ascii) : option Z :=
  let n := code c in
  let lower := Z.lor n 32 in
  if bool_decide (48 ≤ n ∧ n ≤ 57) then Some (n - 48)
  else if bool_decide (97 ≤ lower ∧ lower ≤ 122) then Some (lower - 97 + 10)
  else None.

(** The digit loop of [strconv.ParseUint(s, base, 64)] for [2 <= base <= 36],
    started with the accumulator [n]. *)
Fixpoint parseUint_loop (base : Z) (s : string) (n : Z) : Z * option NumError :=
  match s with
  | EmptyString => (n, None)
  | String c s' =>
      match digit_val c with
      | None => (0, Some ErrSyntax)
      | Some d =>
          if bool_decide (base ≤ d) then (0, Some ErrSyntax)
          else if bool_decide (maxUint64 `quot` base + 1 ≤ n)
          then (maxUint64, Some ErrRange)
          else if bool_decide (maxUint64 < n * base + d)
          then (maxUint64, Some ErrRange)
          else parseUint_loop base s' (n * base + d)
      end
  end.

Definition ParseUint (s : string) (base : Z) : Z * option NumError :=
  match s with
  | EmptyString => (0, Some ErrSyntax)
  | _ => parseUint_loop base s 0
  end.

(** [strconv.ParseInt(s, base, 64)] for [2 <= base <= 36]. *)
Definition ParseInt (s : string) (base : Z) : Z * option NumError :=
  match s with
  | EmptyString => (0, Some ErrSyntax)
  | String c s' =>
      let neg := bool_decide (c = "-"%char) in
      let digits := if bool_decide (c = "+"%char) || neg then s' else s in
      match ParseUint digits base with
      | (_, Some ErrSyntax) => (0, Some ErrSyntax)
      | (un, _) =>
          let cutoff := 2 ^ 63 in
          if negb neg && bool_decide (cutoff ≤ un)
          then (cutoff - 1, Some ErrRange)
          else if neg && bool_decide (cutoff < un)
          then (- cutoff, Some ErrRange)
          else (if neg then - un else un, None)
      end
  end.

(** The fast path of [strconv.Atoi], taken for [0 < len(s) < 19] where [int]
    has 64 bits: an optional sign, then decimal digits only. *)
Fixpoint atoi_digits (s : string) (n : Z) : Z * option NumError :=
  match s with
  | EmptyString => (n, None)
  | String c s' =>
      let ch := wrap8 (code c - 48) in
      if bool_decide (9 < ch) then (0, Some ErrSyntax)
      else atoi_digits s' (n * 10 + ch)
  end.

Definition Atoi (s : string) : Z * option NumError :=
  if bool_decide (0 < len s ∧ len s < 19)
  then match s with
       | EmptyString => (0, Some ErrSyntax)
       | String c s' =>
           let signed := bool_decide (c = "-"%char) || bool_decide (c = "+"%char) in
           let digits := if signed then s' else s in
           if signed && bool_decide (len digits < 1) then (0, Some ErrSyntax)
           else match atoi_digits digits 0 with
                | (n, None) => (if bool_decide (c = "-"%char) then - n else n, None)
                | r => r
                end
       end
  else ParseInt s 10.

(** The message of each error, as the construction site formats it. *)
Definition error_message (e : error) : string :=
  match e with
  | WordlistSizeError => "bip39 is based on 2048 words"
  | IdentifierTooShort =>
      "identifier must be at least " +:+ sprintf_d _inputIdentifierMinLength +:+ " chars"
  | PasswordTooShort =>
      "password must be at least " +:+ sprintf_d _inputPasswordMinLength +:+ " chars"
  | PasscodeWrongLength =>
      "passcode must be " +:+ sprintf_d _inputPasscodeLength +:+ " digits"
  | PasscodeNotNumeric passcode =>
      "passcode must be numeric but given '" +:+ passcode +:+ "'"
  | UnsupportedStrength s => "unsupported strength: " +:+ sprintf_d s
  | UnrecognizedWord w => "unrecognized word " +:+ w
  | InvalidChecksum => "invalid checksum"
  end.

(** ** The cryptographic primitives

    [crypto/sha256], [golang.org/x/crypto/pbkdf2] and the key stretching of
    [golang.org/x/crypto/scrypt] are libraries outside the repository. They
    enter as an interface: the functions, and what their Go types and
    documentation guarantee about the size of what they return ([Sum256]
    returns a [[32]byte], [pbkdf2.Key] a key of [keyLen] bytes, [scrypt.Key]
    past its parameter checks a key of [keyLen] bytes). *)

Inductive hash : Type := sha256_New | sha512_New.

Class Primitives : Type := {
  (** [sha256.Sum256(data)] *)
  sha256_Sum256 : list Z → list Z;
  sha256_Sum256_length : ∀ data, length (sha256_Sum256 data) = 32%nat;
  sha256_Sum256_bytes : ∀ data, Forall is_byte (sha256_Sum256 data);
  (** [pbkdf2.Key(password, salt, iter, keyLen, h)] *)
  pbkdf2_Key : list Z → list Z → Z → Z → hash → list Z;
  pbkdf2_Key_length : ∀ password salt iter keyLen h,
    0 ≤ keyLen → length (pbkdf2_Key password salt iter keyLen h) = Z.to_nat keyLen;
  pbkdf2_Key_bytes : ∀ password salt iter keyLen h,
    Forall is_byte (pbkdf2_Key password salt iter keyLen h);
  (** the derivation of [scrypt.Key(password, salt, N, r, p, keyLen)] once
      its parameters are accepted *)
  scrypt_derive : list Z → list Z → Z → Z → Z → Z → list Z;
  scrypt_derive_length : ∀ password salt N r p keyLen,
    0 ≤ keyLen → length (scrypt_derive password salt N r p keyLen) = Z.to_nat keyLen;
  scrypt_derive_bytes : ∀ password salt N r p keyLen,
    Forall is_byte (scrypt_derive password salt N r p keyLen);
}.

Inductive scrypt_error : Type := ScryptNotPowerOfTwo | ScryptTooLarge.

Definition maxInt : Z := 2 ^ 63 - 1.

(** [scrypt.Key]: the parameter checks of the library, then the derivation.
    The checks read
    [N <= 1 || N&(N-1) != 0] and
    [uint64(r)*uint64(p) >= 1<<30 || r > maxInt/128/p || r > maxInt/256 ||
     N > maxInt/128/r], for positive [r] and [p]. *)
Definition scrypt_Key `{Primitives} (password salt : list Z) (N r p keyLen : Z)
  : list Z * option scrypt_error :=
  if bool_decide (N ≤ 1) || negb (bool_decide (Z.land N (N - 1) = 0))
  then ([], Some ScryptNotPowerOfTwo)
  else if bool_decide (2 ^ 30 ≤ r * p)
       || bool_decide ((maxInt `quot` 128) `quot` p < r)
       || bool_decide (maxInt `quot` 256 < r)
       || bool_decide ((maxInt `quot` 128) `quot` r < N)
  then ([], Some ScryptTooLarge)
  else (scrypt_derive password salt N r p keyLen, None).

(** ** The mnemonic generator *)

Record mnemonicer : Type := {
  words : list string;
  dict : gmap string Z;
}.

(** [for i, w := range words { dict[w] = i }], from index [i] on. *)
Fixpoint build_dict (ws : list string) (i : Z) (d : gmap string Z)
  : gmap string Z :=
  match ws with
  | [] => d
  | w :: ws' => build_dict ws' (i + 1) (<[w := i]> d)
  end.

Definition New (ws : list string) : option mnemonicer * option error :=
  if bool_decide (Z.of_nat (length ws) ≠ 2048)
  then (None, Some WordlistSizeError)
  else (Some {| words := ws; dict := build_dict ws 0 ∅ |}, None).

Definition validateStrength (s : Z) : option error :=
  match _strengths !! s with
  | Some _ => None
  | None => Some (UnsupportedStrength s)
  end.

Fixpoint validateWordsPrecense (m : mnemonicer) (ws : list string)
  : option error :=
  match ws with
  | [] => None
  | w :: ws' =>
      match dict m !! w with
      | Some _ => validateWordsPrecense m ws'
      | None => Some (UnrecognizedWord w)
      end
  end.

(** The runes a [range] over a string yields. The string is decoded as
    UTF-8; a byte that does not start a valid sequence yields U+FFFD and the
    iteration advances by one byte. [utf8_lead] gives, for the first byte of
    a multi-byte sequence, its size and the range accepted for its second
    byte. *)
Definition RuneError : Z := 65533.

Definition between (lo hi b : Z) : bool := bool_decide (lo ≤ b ∧ b ≤ hi).

Definition utf8_lead (b0 : Z) : option (nat * Z * Z) :=
  if between 194 223 b0 then Some (2%nat, 128, 191)
  else if between 224 224 b0 then Some (3%nat, 160, 191)
  else if between 225 236 b0 then Some (3%nat, 128, 191)
  else if between 237 237 b0 then Some (3%nat, 128, 159)
  else if between 238 239 b0 then Some (3%nat, 128, 191)
  else if between 240 240 b0 then Some (4%nat, 144, 191)
  else if between 241 243 b0 then Some (4%nat, 128, 191)
  else if between 244 244 b0 then Some (4%nat, 128, 143)
  else None.

Fixpoint runes (s : string) : list Z :=
  match s with
  | EmptyString => []
  | String c0 s1 =>
      let b0 := code c0 in
      if bool_decide (b0 < 128) then b0 :: runes s1
      else
        match utf8_lead b0, s1 with
        | Some (2%nat, lo, hi), String c1 s2 =>
            if between lo hi (code c1)
            then Z.lor (Z.shiftl (Z.land b0 31) 6) (Z.land (code c1) 63) :: runes s2
            else RuneError :: runes s1
        | Some (3%nat, lo, hi), String c1 (String c2 s3) =>
            if between lo hi (code c1) && between 128 191 (code c2)
            then Z.lor (Z.shiftl (Z.land b0 15) 12)
                   (Z.lor (Z.shiftl (Z.land (code c1) 63) 6) (Z.land (code c2) 63))
                 :: runes s3
            else RuneError :: runes s1
        | Some (4%nat, lo, hi), String c1 (String c2 (String c3 s4)) =>
            if between lo hi (code c1) && between 128 191 (code c2)
               && between 128 191 (code c3)
            then Z.lor (Z.shiftl (Z.land b0 7) 18)
                   (Z.lor (Z.shiftl (Z.land (code c1) 63) 12)
                      (Z.lor (Z.shiftl (Z.land (code c2) 63) 6) (Z.land (code c3) 63)))
                 :: runes s4
            else RuneError :: runes s1
        | _, _ => RuneError :: runes s1
        end
  end.

(** The state of the loop of [binToBytes], and one round of it for the rune
    [v]: [byte(v-'0')] keeps the low 8 bits. *)
Record packing : Type := {
  bs : list Z;
  count : Z;
  i : Z;
  current : Z;
}.

Definition binToBytes_step (st : packing) (v : Z) : outcome packing :=
  st1 ← (if bool_decide (count st = _bitChunkSizeOneByte)
         then bs' ← store (bs st) (i st) (current st);
              Returns {| bs := bs'; count := 0; i := i st + 1; current := 0 |}
         else Returns st);
  Returns {| bs := bs st1;
             count := count st1 + 1;
             i := i st1;
             current := wrap8 (wrap8 (Z.shiftl (current st1) 1) + wrap8 (v - 48)) |}.

(** After the loop: the pending group is flushed, left-aligned, and the
    slice is cut to the bytes written. *)
Definition binToBytes_finish (st : packing) : outcome (list Z) :=
  st ← (if bool_decide (count st ≠ 0)
        then bs' ← store (bs st) (i st)
                     (wrap8 (Z.shiftl (current st)
                               (wrap8 (_bitChunkSizeOneByte - wrap8 (count st)))));
             Returns {| bs := bs'; count := count st; i := i st + 1;
                        current := current st |}
        else Returns st);
  if bool_decide (0 ≤ i st ∧ i st ≤ Z.of_nat (length (bs st)))
  then Returns (take (Z.to_nat (i st)) (bs st))
  else Panics.

Definition binToBytes (bitString : string) : outcome (list Z) :=
  let lenB := len bitString `quot` _bitChunkSizeOneByte + 1 in
  bs0 ← make 0 lenB;
  st ← foldM binToBytes_step {| bs := bs0; count := 0; i := 0; current := 0 |}
         (runes bitString);
  binToBytes_finish st.

Definition bytesToBin (vals : list Z) : string :=
  fold_left (λ val n, val +:+ sprintf_0b 8 n) vals "".

(** [intToBin] builds the verb ["%0<bits>b"] and formats [n] with it. *)
Definition intToBin (n bits : Z) : string := sprintf_0b (Z.to_nat bits) n.

(** The error of [ParseInt] is dropped, its value kept. *)
Definition binToInt (n : string) : Z := fst (ParseInt n 2).

(** [chunkSplit]: the division panics for [size = 0], and [make] for a
    negative capacity. *)
Definition chunkSplit (s : string) (size : Z) : outcome (list string) :=
  if bool_decide (size = 0) then Panics
  else if bool_decide (len s `quot` size < 0) then Panics
  else
    let l := len s `quot` size in
    foldM (λ chunks i, c ← str_slice s (i * size) ((i + 1) * size);
                       Returns (chunks ++ [c]))
          [] (seqZ 0 l).

Section Mnemonicer.
Context `{Primitives}.

Definition checksum (entropy : list Z) (size : Z) : outcome string :=
  let sum := sha256_Sum256 entropy in
  b ← index sum 0;
  str_slice (sprintf_0b 8 b) 0 size.

(** Lines 104-125 of [Generate]: the two key derivations and their
    exclusive or. The error of [scrypt.Key] is dropped. *)
Definition deriveEntropy (identifier password passcode : string)
    (size strength : Z) : outcome (list Z) :=
  let input := bytes_of_string
    (identifier +:+ ":" +:+ password +:+ "|" +:+ passcode +:+ "=" +:+ sprintf_d size) in
  let entropySize := strength `quot` _bitChunkSizeOneByte in
  let dkHead := pbkdf2_Key input
    (bytes_of_string (_saltPrefixPassword +:+ password +:+ _saltPrefixPasscode +:+ passcode))
    (Z.shiftl 1 18) entropySize sha512_New in
  let dkTail := fst (scrypt_Key input
    (bytes_of_string (_saltPrefixPassword +:+ password +:+ _saltPrefixPasscode +:+ passcode))
    (Z.shiftl 1 18) 8 1 entropySize) in
  entropy ← make 0 entropySize;
  foldM (λ entropy i, a ← index dkHead i;
                      b ← index dkTail i;
                      store entropy i (Z.lxor a b))
        entropy (seqZ 0 entropySize).

(** Lines 126-144 of [Generate]: from the entropy to the words. *)
Definition encodeWords (m : mnemonicer) (entropy : list Z) (strength : Z)
  : outcome (list string) :=
  let bins := bytesToBin entropy in
  let csSize := strength `quot` _bitChunkSizeEntropy in
  let mnemonicSize := (strength + csSize) `quot` _bitChunkSizeBip39WordIndex in
  let prefixSize := _bitChunkSizeBip39WordIndex - csSize in
  head ← str_slice bins 0 (strength - prefixSize);
  wordIndexes ← chunkSplit head _bitChunkSizeBip39WordIndex;
  ws ← make "" mnemonicSize;
  ws ← foldM (λ ws '(i, wi), w ← index (words m) (binToInt wi);
                             store ws i w)
             ws (zip (seqZ 0 (Z.of_nat (length wordIndexes))) wordIndexes);
  cs ← checksum entropy csSize;
  prefix ← str_slice bins (strength - prefixSize) (len bins);
  w ← index (words m) (binToInt (prefix +:+ cs));
  store ws (mnemonicSize - 1) w.

Definition Generate (m : mnemonicer) (identifier password passcode : string)
    (size : Z) : outcome (list string * option error) :=
  if bool_decide (len identifier < _inputIdentifierMinLength)
  then Returns ([], Some IdentifierTooShort)
  else if bool_decide (len password < _inputPasswordMinLength)
  then Returns ([], Some PasswordTooShort)
  else if bool_decide (len passcode ≠ _inputPasscodeLength)
  then Returns ([], Some PasscodeWrongLength)
  else match snd (Atoi passcode) with
  | Some _ => Returns ([], Some (PasscodeNotNumeric passcode))
  | None =>
      let strength := map_get _sentenceStrengths size in
      match validateStrength strength with
      | Some err => Returns ([], Some err)
      | None =>
          entropy ← deriveEntropy identifier password passcode size strength;
          ws ← encodeWords m entropy strength;
          Returns (ws, None)
      end
  end.

Definition buildBins (m : mnemonicer) (strength : Z) (ws : list string)
  : string * option error :=
  match validateStrength strength with
  | Some err => ("", Some err)
  | None =>
      match validateWordsPrecense m ws with
      | Some err => ("", Some err)
      | None =>
          (fold_left (λ bins w,
             bins +:+ intToBin (map_get (dict m) w) _bitChunkSizeBip39WordIndex)
             ws "", None)
      end
  end.

Definition CalculateEntropy (m : mnemonicer) (ws : list string)
  : outcome (list Z * option error) :=
  let strength := map_get _sentenceStrengths (Z.of_nat (length ws)) in
  match buildBins m strength ws with
  | (_, Some err) => Returns ([], Some err)
  | (bins, None) =>
      head ← str_slice bins 0 strength;
      entropy ← binToBytes head;
      let csSize := strength `quot` _bitChunkSizeEntropy in
      cs ← checksum entropy csSize;
      tail ← str_slice bins strength (len bins);
      if bool_decide (cs = tail) then Returns (entropy, None)
      else Returns ([], Some InvalidChecksum)
  end.

Definition GenerateSeed (sentence passphrase : string)
  : list Z * option error :=
  (pbkdf2_Key (bytes_of_string sentence)
     (bytes_of_string (_saltPrefixMnemonic +:+ passphrase)) 2048 64 sha512_New,
   None).

Definition GenerateSeed32 (sentence passphrase : string)
  : list Z * option error :=
  (pbkdf2_Key (bytes_of_string sentence)
     (bytes_of_string (_saltPrefixMnemonic +:+ passphrase)) 4096 32 sha512_New,
   None).

Definition IsValid (m : mnemonicer) (ws : list string)
  : outcome (bool * option error) :=
  let strength := map_get _sentenceStrengths (Z.of_nat (length ws)) in
  match buildBins m strength ws with
  | (_, Some err) => Returns (false, Some err)
  | (bins, None) =>
      head ← str_slice bins 0 strength;
      entropy ← binToBytes head;
      let csSize := strength `quot` _bitChunkSizeEntropy in
      cs ← checksum entropy csSize;
      tail ← str_slice bins strength (len bins);
      if bool_decide (cs = tail) then Returns (true, None)
      else Returns (false, None)
  end.

End Mnemonicer.

(** ** The vocabulary of the specification *)

Definition is_bit (c : ascii) : bool :=
  bool_decide (c = "0"%char) || bool_decide (c = "1"%char).

(** A bit string: every character is ['0'] or ['1']. *)
Fixpoint is_bits (s : string) : bool :=
  match s with
  | EmptyString => true
  | String c s' => is_bit c && is_bits s'
  end.

Definition bit_of (c : ascii) : Z := if bool_decide (c = "1"%char) then 1 else 0.

(** A bit string read as a base-2 unsigned integer, first character most
    significant. *)
Fixpoint bits_value (s : string) : Z :=
  match s with
  | EmptyString => 0
  | String c s' => bit_of c * 2 ^ len s' + bits_value s'
  end.

Definition bit_char (b : bool) : ascii := if b then "1"%char else "0"%char.

(** The eight bits of a byte, most significant first. *)
Definition byte_bits_msb (b : Z) : string :=
  foldr (λ k s, String (bit_char (Z.testbit b k)) s) "" [7; 6; 5; 4; 3; 2; 1; 0].

(** A byte sequence expanded to bits, MSB-first per byte. *)
Definition bits_msb (l : list Z) : string :=
  foldr (λ b s, byte_bits_msb b +:+ s) "" l.

(** A group of at most 8 bits packed into a byte: the bits take the most
    significant positions, the low positions are zero. *)
Definition pack_byte (g : string) : Z :=
  Z.shiftl (bits_value g) (8 - len g).

(** The [j]-th group of [size] characters of [s] (shorter at the end). *)
Definition group (size : nat) (s : string) (j : nat) : string :=
  str_take size (str_drop (size * j) s).

(** [ceil(n / 8)] *)
Definition ceil8 (n : nat) : nat := ((n + 7) `div` 8)%nat.

(** The bytes a bit string packs into, group by group. *)
Definition packed (s : string) : list Z :=
  (λ j, pack_byte (group 8 s j)) <$> seq 0 (ceil8 (String.length s)).

(** The loop of [binToBytes] over a string of ASCII characters, whose runes
    are its bytes. *)
Fixpoint binToBytes_loop (s : string) (st : packing) : outcome packing :=
  match s with
  | EmptyString => Returns st
  | String v s' => st' ← binToBytes_step st (code v); binToBytes_loop s' st'
  end.

(** The accumulator of [binToBytes] over one group, without the array. *)
Fixpoint scan_cur (g : string) (cur : Z) : Z :=
  match g with
  | EmptyString => cur
  | String v g' =>
      scan_cur g' (wrap8 (wrap8 (Z.shiftl cur 1) + wrap8 (code v - 48)))
  end.

(** Every bit string of a given length. *)
Fixpoint all_bits (n : nat) : list string :=
  match n with
  | O => [""]
  | S n' => (String "0" <$> all_bits n') ++ (String "1" <$> all_bits n')
  end.

Definition is_digit (c : ascii) : bool :=
  bool_decide (48 ≤ code c ∧ code c ≤ 57).

Fixpoint all_digits (s : string) : bool :=
  match s with
  | EmptyString => true
  | String c s' => is_digit c && all_digits s'
  end.

Definition supported_size (size : Z) : Prop :=
  size = 12 ∨ size = 15 ∨ size = 18 ∨ size = 21 ∨ size = 24.

(** The preconditions of [Generate], as the specification lists them. *)
Definition valid_input (identifier password passcode : string) (size : Z) : Prop :=
  2 ≤ len identifier ∧ 12 ≤ len password ∧ len passcode = 6 ∧
  all_digits passcode = true ∧ supported_size size.

(** A dictionary as the specification has it: 2048 distinct words, held by
    the generator [New] builds from them. *)
Definition dictionary (m : mnemonicer) : Prop :=
  ∃ ws, NoDup ws ∧ New ws = (Some m, None).

(** The facts about one group of [binToBytes] that are checked by
    enumeration. *)
Definition group_ok (g : string) : bool :=
  bool_decide (scan_cur g 0 = bits_value g)
  && bool_decide (0 ≤ bits_value g ∧ bits_value g < 256)
  && bool_decide
       (wrap8 (Z.shiftl (scan_cur g 0) (wrap8 (_bitChunkSizeOneByte - wrap8 (len g))))
        = pack_byte g).

Definition byte_ok (b : Z) : bool :=
  bool_decide (sprintf_0b 8 b = byte_bits_msb b)
  && is_bits (sprintf_0b 8 b)
  && bool_decide (String.length (sprintf_0b 8 b) = 8%nat)
  && bool_decide (bits_value (sprintf_0b 8 b) = b).

Definition word_index_ok (c : string) : bool :=
  bool_decide (intToBin (binToInt c) _bitChunkSizeBip39WordIndex = c)
  && bool_decide (0 ≤ binToInt c ∧ binToInt c < 2048)
  && bool_decide (binToInt c = bits_value c).

Definition word_at (m : mnemonicer) (k : Z) : string :=
  default "" (words m !! Z.to_nat k).

(** The StrengthTable of the specification. *)
Definition strength_of (size : Z) : Z :=
  if bool_decide (size = 12) then 128
  else if bool_decide (size = 15) then 160
  else if bool_decide (size = 18) then 192
  else if bool_decide (size = 21) then 224
  else if bool_decide (size = 24) then 256
  else 0.

Definition canonical_message (identifier password passcode : string) (size : Z)
  : string :=
  identifier +:+ ":" +:+ password +:+ "|" +:+ passcode +:+ "=" +:+ sprintf_d size.

Definition kdf_salt (password passcode : string) : string :=
  "pwd" +:+ password +:+ "code" +:+ passcode.

Section Streams.
Context `{Primitives}.

(** Stream A: PBKDF2 with HMAC-SHA512 and 2^18 iterations. *)
Definition stream_A (identifier password passcode : string) (size : Z) : list Z :=
  pbkdf2_Key (bytes_of_string (canonical_message identifier password passcode size))
    (bytes_of_string (kdf_salt password passcode))
    262144 (strength_of size `div` 8) sha512_New.

(** Stream B: scrypt with N = 2^18, r = 8, p = 1. *)
Definition stream_B (identifier password passcode : string) (size : Z) : list Z :=
  fst (scrypt_Key (bytes_of_string (canonical_message identifier password passcode size))
         (bytes_of_string (kdf_salt password passcode))
         262144 8 1 (strength_of size `div` 8)).

Definition entropy_of (identifier password passcode : string) (size : Z) : list Z :=
  zip_with Z.lxor (stream_A identifier password passcode size)
    (stream_B identifier password passcode size).

(** The first byte of the SHA-256 digest. *)
Definition digest_head (entropy : list Z) : Z :=
  default 0 (sha256_Sum256 entropy !! 0%nat).

Definition checksum_bits (entropy : list Z) (sizeBits : nat) : string :=
  str_take sizeBits (byte_bits_msb (digest_head entropy)).
End Streams.

(** The shape of a mnemonic: its strength, the size of its checksum and the
    number of words before the last, for each supported word count. *)
Definition shape (size strength : Z) (cs k : nat) : Prop :=
  (size = 12 ∧ strength = 128 ∧ cs = 4%nat ∧ k = 11%nat) ∨
  (size = 15 ∧ strength = 160 ∧ cs = 5%nat ∧ k = 14%nat) ∨
  (size = 18 ∧ strength = 192 ∧ cs = 6%nat ∧ k = 17%nat) ∨
  (size = 21 ∧ strength = 224 ∧ cs = 7%nat ∧ k = 20%nat) ∨
  (size = 24 ∧ strength = 256 ∧ cs = 8%nat ∧ k = 23%nat).

Section Sentence.
Context `{Primitives}.

(** The bits of a mnemonic: the entropy bits, then [cs] checksum bits. *)
Definition sentence_bits (entropy : list Z) (cs : nat) : string :=
  bits_msb entropy +:+ checksum_bits entropy cs.

(** The words of a mnemonic: one per group of 11 bits. *)
Definition sentence (m : mnemonicer) (entropy : list Z) (cs n : nat) : list string :=
  (λ j, word_at m (bits_value (group 11 (sentence_bits entropy cs) j))) <$> seq 0 n.
End Sentence.

(** A generator that [New] returned (the record is private to the package). *)
Definition generator (m : mnemonicer) : Prop :=
  ∃ ws, New ws = (Some m, None).

(** The checks of [Generate], as the code makes them. *)
Definition passes_validation (identifier password passcode : string) (size : Z)
  : Prop :=
  2 ≤ len identifier ∧ 12 ≤ len password ∧ len passcode = 6 ∧
  snd (Atoi passcode) = None ∧ supported_size size.

(** The bits of a word sequence: the 11-bit, left-zero-padded indices of its
    words, concatenated in order. *)
Definition index_bits (m : mnemonicer) (ws : list string) : string :=
  foldr (λ w s, sprintf_0b 11 (map_get (dict m) w) +:+ s) "" ws.

Definition index_ok11 (v : Z) : bool :=
  is_bits (sprintf_0b 11 v) && bool_decide (String.length (sprintf_0b 11 v) = 11%nat).

Definition group8_ok (g : string) : bool :=
  bool_decide (byte_bits_msb (bits_value g) = g).

(** A numeral without its leading sign, as [ParseInt] strips it. *)
Definition unsigned (s : string) : string :=
  match s with
  | String c s' =>
      if bool_decide (c = "+"%char) || bool_decide (c = "-"%char) then s' else s
  | EmptyString => EmptyString
  end.

(** ** Concrete instances, for evaluating the model

    Any functions with the right output sizes implement [Primitives]; these
    are small stand-ins, not the cryptographic functions. *)

Definition toy_digest (n : Z) (data : list Z) : list Z :=
  (λ k, wrap8 (foldr (λ x acc, 33 * acc + x) (7 * k + 1) data)) <$> seqZ 0 n.

#[local] Program Instance toy_primitives : Primitives := {|
  sha256_Sum256 data := toy_digest 32 data;
  pbkdf2_Key password salt iter keyLen h :=
    toy_digest keyLen (iter :: password ++ salt);
  scrypt_derive password salt N r p keyLen :=
    toy_digest keyLen (N :: r :: p :: salt ++ password);
|}.
Solve All Obligations with
  (intros; unfold toy_digest;
   first [ by rewrite length_fmap, length_seqZ
         | apply Forall_fmap, Forall_forall; intros k _;
           apply Z.mod_pos_bound; lia ]).

(** 2048 distinct words: the 11-bit numerals. *)
Definition toy_words : list string := all_bits 11.

Definition toy_mnemonicer : mnemonicer :=
  {| words := toy_words; dict := build_dict toy_words 0 ∅ |}.

(** * Properties *)

(** ** Strings *)

Lemma str_cons_app c s t : String c s +:+ t = String c (s +:+ t).
Proof. reflexivity. Qed.

Lemma str_app_nil_r s : s +:+ "" = s.
Proof. induction s as [|c s IH]; [done|]. by rewrite str_cons_app, IH. Qed.

Lemma str_app_assoc s t u : (s +:+ t) +:+ u = s +:+ (t +:+ u).
Proof. induction s as [|c s IH]; [done|]. by rewrite !str_cons_app, IH. Qed.

Lemma str_length_app s t :
  String.length (s +:+ t) = (String.length s + String.length t)%nat.
Proof. induction s as [|c s IH]; [done|]. rewrite str_cons_app. simpl. by rewrite IH. Qed.

Lemma len_app s t : len (s +:+ t) = len s + len t.
Proof. unfold len. rewrite str_length_app. lia. Qed.

Lemma len_nonneg s : 0 ≤ len s.
Proof. unfold len. lia. Qed.

Lemma str_take_0 s : str_take 0 s = "".
Proof. by destruct s. Qed.

Lemma str_drop_0 s : str_drop 0 s = s.
Proof. by destruct s. Qed.

Lemma str_take_drop n s : str_take n s +:+ str_drop n s = s.
Proof.
  revert s. induction n as [|n IH]; intros [|c s]; try done.
  simpl. by rewrite str_cons_app, IH.
Qed.

Lemma str_take_app s t : str_take (String.length s) (s +:+ t) = s.
Proof.
  induction s as [|c s IH]; [by rewrite str_take_0|].
  rewrite str_cons_app. simpl. by rewrite IH.
Qed.

Lemma str_drop_app s t : str_drop (String.length s) (s +:+ t) = t.
Proof.
  induction s as [|c s IH]; [by rewrite str_drop_0|].
  rewrite str_cons_app. simpl. by rewrite IH.
Qed.

Lemma str_take_all n s : (String.length s ≤ n)%nat → str_take n s = s.
Proof.
  revert s. induction n as [|n IH]; intros [|c s] Hl; simpl in *; try done; try lia.
  rewrite IH; [done|lia].
Qed.

Lemma str_drop_all n s : (String.length s ≤ n)%nat → str_drop n s = "".
Proof.
  revert s. induction n as [|n IH]; intros [|c s] Hl; simpl in *; try done; try lia.
  apply IH. lia.
Qed.

Lemma str_length_take n s :
  String.length (str_take n s) = (n `min` String.length s)%nat.
Proof.
  revert s. induction n as [|n IH]; intros [|c s]; simpl; try done.
  by rewrite IH.
Qed.

Lemma str_length_drop n s :
  String.length (str_drop n s) = (String.length s - n)%nat.
Proof.
  revert s. induction n as [|n IH]; intros [|c s]; simpl; try done.
Qed.

Lemma str_drop_drop a b s : str_drop a (str_drop b s) = str_drop (b + a) s.
Proof.
  revert s. induction b as [|b IH]; intros s.
  - by rewrite str_drop_0.
  - destruct s as [|c s]; simpl; [by destruct a|]. apply IH.
Qed.

Lemma str_take_take a b s : (a ≤ b)%nat → str_take a (str_take b s) = str_take a s.
Proof.
  revert b s. induction a as [|a IH]; intros b s Hab.
  - by rewrite !str_take_0.
  - destruct b as [|b]; [lia|]. destruct s as [|c s]; simpl; [done|].
    rewrite IH; [done|lia].
Qed.

Lemma str_drop_take a b s :
  str_drop a (str_take (a + b) s) = str_take b (str_drop a s).
Proof.
  revert s. induction a as [|a IH]; intros s.
  - by rewrite !str_drop_0.
  - destruct s as [|c s]; simpl; [by destruct b|]. apply IH.
Qed.

Lemma str_slice_ok s lo hi :
  0 ≤ lo → lo ≤ hi → hi ≤ len s →
  str_slice s lo hi =
    Returns (str_take (Z.to_nat (hi - lo)) (str_drop (Z.to_nat lo) s)).
Proof. intros. unfold str_slice. rewrite bool_decide_eq_true_2; [done|lia]. Qed.

Lemma str_slice_prefix s t : str_slice (s +:+ t) 0 (len s) = Returns s.
Proof.
  rewrite str_slice_ok; [|lia|apply len_nonneg|rewrite len_app; pose proof (len_nonneg t); lia].
  unfold len. rewrite Z.sub_0_r, Nat2Z.id. change (Z.to_nat 0) with 0%nat.
  by rewrite str_drop_0, str_take_app.
Qed.

Lemma str_slice_suffix s t : str_slice (s +:+ t) (len s) (len (s +:+ t)) = Returns t.
Proof.
  rewrite str_slice_ok; [|apply len_nonneg|rewrite len_app; pose proof (len_nonneg t); lia|lia].
  rewrite len_app. unfold len. rewrite Nat2Z.id, str_drop_app.
  rewrite str_take_all; [done|lia].
Qed.

(** ** Enumerating bit strings and bytes *)

Lemma all_bits_complete s : is_bits s = true → s ∈ all_bits (String.length s).
Proof.
  induction s as [|c s IH]; simpl; intros Hs.
  - apply list_elem_of_singleton. done.
  - apply andb_true_iff in Hs as [Hc Hs]. apply elem_of_app.
    unfold is_bit in Hc. apply orb_true_iff in Hc as [Hc|Hc];
      apply bool_decide_eq_true in Hc; subst c; [left|right];
      apply list_elem_of_fmap; eauto.
Qed.

Lemma bits_forall (P : string → bool) n :
  forallb P (all_bits n) = true →
  ∀ s, is_bits s = true → String.length s = n → P s = true.
Proof.
  intros HP s Hs <-. rewrite forallb_forall in HP.
  apply HP, list_elem_of_In, all_bits_complete, Hs.
Qed.

Lemma byte_forall (P : Z → bool) :
  forallb P (seqZ 0 256) = true → ∀ b, is_byte b → P b = true.
Proof.
  intros HP b Hb. rewrite forallb_forall in HP.
  apply HP, list_elem_of_In, elem_of_seqZ. unfold is_byte in Hb. lia.
Qed.

(** A conjunction of boolean checks, split into its propositions. *)
Ltac unpack_checks Hok :=
  repeat (apply andb_true_iff in Hok as [Hok ?]);
  repeat match goal with
         | H : bool_decide _ = true |- _ => apply bool_decide_eq_true in H
         end.

(** Quotient and remainder of [n] by 8. *)
Ltac div8 n :=
  pose proof (Nat.div_mod_eq n 8); pose proof (Nat.mod_upper_bound n 8).

Lemma is_bits_app s t : is_bits (s +:+ t) = is_bits s && is_bits t.
Proof.
  induction s as [|c s IH]; [done|]. rewrite str_cons_app. simpl.
  by rewrite IH, andb_assoc.
Qed.

Lemma is_bits_take n s : is_bits s = true → is_bits (str_take n s) = true.
Proof.
  intros Hs. rewrite <- (str_take_drop n s), is_bits_app in Hs.
  by apply andb_true_iff in Hs as [? _].
Qed.

Lemma is_bits_drop n s : is_bits s = true → is_bits (str_drop n s) = true.
Proof.
  intros Hs. rewrite <- (str_take_drop n s), is_bits_app in Hs.
  by apply andb_true_iff in Hs as [_ ?].
Qed.

(** ** Packing bits into bytes *)

Lemma group_facts g :
  is_bits g = true → (1 ≤ String.length g ≤ 8)%nat →
  scan_cur g 0 = bits_value g ∧ is_byte (bits_value g) ∧
  wrap8 (Z.shiftl (scan_cur g 0) (wrap8 (_bitChunkSizeOneByte - wrap8 (len g))))
  = pack_byte g.
Proof.
  intros Hg Hl.
  assert (group_ok g = true) as Hok.
  { assert (∀ n, (1 ≤ n ≤ 8)%nat → forallb group_ok (all_bits n) = true) as Hall.
    { intros n Hn.
      assert (n = 1 ∨ n = 2 ∨ n = 3 ∨ n = 4 ∨ n = 5 ∨ n = 6 ∨ n = 7 ∨ n = 8)%nat
        as Hc by lia.
      destruct_or!; subst n; by vm_compute. }
    eapply bits_forall; [apply Hall, Hl|done|done]. }
  unfold group_ok in Hok. unpack_checks Hok. done.
Qed.

Lemma runes_bits s : is_bits s = true → runes s = bytes_of_string s.
Proof.
  induction s as [|c s IH]; [done|]. intros Hs.
  change (is_bits (String c s)) with (is_bit c && is_bits s) in Hs.
  apply andb_true_iff in Hs as [Hc Hs]. unfold is_bit in Hc.
  assert (code c < 128) as Hlt.
  { apply orb_true_iff in Hc as [Hc|Hc]; apply bool_decide_eq_true in Hc;
      by subst c. }
  cbn [runes bytes_of_string]. cbv zeta.
  rewrite bool_decide_eq_true_2 by done. by rewrite IH.
Qed.

Lemma foldM_bytes s st :
  foldM binToBytes_step st (bytes_of_string s) = binToBytes_loop s st.
Proof.
  revert st. induction s as [|c s IH]; intros st; [done|].
  cbn [bytes_of_string foldM binToBytes_loop].
  destruct (binToBytes_step st (code c)) as [st'|]; [apply IH|done].
Qed.

Lemma binToBytes_loop_app s t st :
  binToBytes_loop (s +:+ t) st = st' ← binToBytes_loop s st; binToBytes_loop t st'.
Proof.
  revert st. induction s as [|c s IH]; intros st; [done|].
  rewrite str_cons_app. simpl.
  destruct (binToBytes_step st (code c)) as [st1|]; simpl; [apply IH|done].
Qed.

Lemma binToBytes_loop_group g st :
  count st + len g ≤ 8 →
  binToBytes_loop g st =
    Returns {| bs := bs st; count := count st + len g; i := i st;
               current := scan_cur g (current st) |}.
Proof.
  revert st. induction g as [|v g IH]; intros [b c k cur] Hc; simpl in *.
  - unfold len. simpl. by rewrite Z.add_0_r.
  - unfold len in *. simpl String.length in *.
    unfold binToBytes_step. simpl.
    rewrite bool_decide_eq_false_2 by (unfold _bitChunkSizeOneByte; lia).
    simpl. rewrite IH by (simpl; lia). simpl. do 2 f_equal. lia.
Qed.

Lemma binToBytes_loop_flush v g st :
  count st = 8 →
  binToBytes_loop (String v g) st =
    bs' ← store (bs st) (i st) (current st);
    binToBytes_loop (String v g)
      {| bs := bs'; count := 0; i := i st + 1; current := 0 |}.
Proof.
  intros Hc. simpl. unfold binToBytes_step.
  rewrite bool_decide_eq_true_2 by done.
  destruct (store (bs st) (i st) (current st)) as [bs'|]; [|done].
  done.
Qed.

Lemma store_ok {A} (a : list A) k x :
  0 ≤ k → k < Z.of_nat (length a) → store a k x = Returns (<[Z.to_nat k := x]> a).
Proof. intros. unfold store. rewrite bool_decide_eq_true_2; [done|lia]. Qed.

Lemma take_store {A} (a : list A) (k : nat) x :
  (k < length a)%nat → take (S k) (<[k := x]> a) = take k a ++ [x].
Proof.
  intros Hk. rewrite (take_S_r _ _ x) by (by apply list_lookup_insert_eq).
  by rewrite take_insert_ge.
Qed.

(** Flushing a pending group of 1 to 8 bits. *)
Lemma binToBytes_finish_group g b k :
  is_bits g = true → (1 ≤ String.length g ≤ 8)%nat →
  0 ≤ k → k < Z.of_nat (length b) →
  binToBytes_finish {| bs := b; count := len g; i := k; current := scan_cur g 0 |}
  = Returns (take (Z.to_nat k) b ++ [pack_byte g]).
Proof.
  intros Hg Hl Hk Hb. destruct (group_facts g Hg Hl) as (_ & _ & Hp).
  unfold binToBytes_finish. simpl.
  rewrite bool_decide_eq_true_2 by (unfold len; lia).
  rewrite Hp, store_ok by done. simpl.
  rewrite length_insert, bool_decide_eq_true_2 by lia.
  rewrite Z2Nat.inj_add by lia. rewrite Nat.add_1_r.
  rewrite take_store by lia. done.
Qed.

Lemma bind_Returns {A B} (a : A) (f : A → outcome B) : (Returns a ≫= f) = f a.
Proof. done. Qed.

Lemma ceil8_0 n : ceil8 n = 0%nat → n = 0%nat.
Proof. unfold ceil8. intros Hn. div8 (n + 7)%nat. lia. Qed.

Lemma ceil8_small n : (1 ≤ n ≤ 8)%nat → ceil8 n = 1%nat.
Proof. unfold ceil8. intros Hn. div8 (n + 7)%nat. lia. Qed.

Lemma ceil8_step n : (8 ≤ n)%nat → ceil8 n = S (ceil8 (n - 8)).
Proof.
  unfold ceil8. intros Hn.
  replace (n + 7)%nat with (n - 8 + 7 + 1 * 8)%nat by lia.
  rewrite Nat.div_add by lia. lia.
Qed.

Lemma ceil8_mul n : ceil8 (8 * n) = n.
Proof.
  unfold ceil8. div8 (8 * n + 7)%nat. lia.
Qed.

Lemma group_0 size s : group size s 0 = str_take size s.
Proof. unfold group. by rewrite Nat.mul_0_r, str_drop_0. Qed.

Lemma group_S size s j : group size s (S j) = group size (str_drop size s) j.
Proof. unfold group. rewrite str_drop_drop. f_equal. f_equal. lia. Qed.

Lemma packed_nil : packed "" = [].
Proof. done. Qed.

Lemma packed_small s :
  (1 ≤ String.length s ≤ 8)%nat → packed s = [pack_byte s].
Proof.
  intros Hs. unfold packed. rewrite ceil8_small by done. simpl.
  rewrite group_0, str_take_all by lia. done.
Qed.

Lemma packed_step s :
  (8 ≤ String.length s)%nat →
  packed s = pack_byte (str_take 8 s) :: packed (str_drop 8 s).
Proof.
  intros Hs. unfold packed. rewrite ceil8_step by done.
  rewrite str_length_drop. cbn [seq fmap list_fmap]. rewrite group_0. f_equal.
  rewrite <- fmap_S_seq, <- list_fmap_compose.
  apply list_fmap_ext. intros _ j _. simpl. by rewrite group_S.
Qed.

Lemma binToBytes_run n : ∀ s b k,
  is_bits s = true → ceil8 (String.length s) = n →
  0 ≤ k → k + Z.of_nat n ≤ Z.of_nat (length b) →
  (st ← binToBytes_loop s {| bs := b; count := 0; i := k; current := 0 |};
   binToBytes_finish st) = Returns (take (Z.to_nat k) b ++ packed s).
Proof.
  induction n as [|n IH]; intros s b k Hs Hn Hk Hb.
  - apply ceil8_0 in Hn. destruct s; [|done]. simpl.
    unfold binToBytes_finish. simpl.
    rewrite bool_decide_eq_true_2 by lia. by rewrite packed_nil, app_nil_r.
  - assert (String.length s ≠ 0)%nat as Hne by (by intros Hl; rewrite Hl in Hn).
    pose proof (is_bits_take 8 s Hs) as Hg.
    pose proof (is_bits_drop 8 s Hs) as Hr.
    pose proof (str_length_take 8 s) as Hlg.
    pose proof (str_length_drop 8 s) as Hlr.
    rewrite <- (str_take_drop 8 s) at 1.
    rewrite binToBytes_loop_app, binToBytes_loop_group by (unfold len; cbn [count]; lia).
    rewrite bind_Returns. cbn [bs count i current]. rewrite Z.add_0_l.
    destruct (str_drop 8 s) as [|v r] eqn:Hrest.
    + simpl in Hlr. cbn [binToBytes_loop]. rewrite bind_Returns.
      rewrite binToBytes_finish_group by (done || lia).
      assert (str_take 8 s = s) as Heq.
      { by rewrite <- (str_take_drop 8 s) at 2; rewrite Hrest, str_app_nil_r. }
      rewrite Heq in *. rewrite packed_small by lia. done.
    + simpl in Hlr.
      destruct (group_facts (str_take 8 s) Hg) as (Hv & Hbyte & _); [lia|].
      rewrite binToBytes_loop_flush by (unfold len; simpl; lia).
      cbn [bs count i current]. rewrite store_ok by lia. rewrite bind_Returns.
      rewrite IH.
      * rewrite Z2Nat.inj_add by lia. rewrite Nat.add_1_r.
        rewrite take_store by lia. rewrite <- app_assoc. simpl.
        rewrite (packed_step s) by lia. rewrite Hrest. do 3 f_equal.
        unfold pack_byte, len. rewrite Hv, Hlg.
        replace (8 `min` String.length s)%nat with 8%nat by lia. done.
      * done.
      * rewrite ceil8_step in Hn by lia. rewrite <- Hlr in Hn. simpl. lia.
      * lia.
      * rewrite length_insert. lia.
Qed.

Lemma binToBytes_packed s :
  is_bits s = true → binToBytes s = Returns (packed s).
Proof.
  intros Hs. unfold binToBytes, make.
  assert (0 ≤ len s `quot` _bitChunkSizeOneByte) as Hq.
  { apply Z.quot_pos; [apply len_nonneg|done]. }
  rewrite bool_decide_eq_true_2 by lia. rewrite bind_Returns.
  rewrite runes_bits, foldM_bytes by done.
  rewrite (binToBytes_run (ceil8 (String.length s))); [done..| |].
  - lia.
  - rewrite length_replicate. unfold ceil8, len, _bitChunkSizeOneByte.
    rewrite Z.quot_div_nonneg by lia.
    rewrite Z2Nat.id by (apply Z.add_nonneg_nonneg; [apply Z.div_pos|]; lia).
    rewrite Nat2Z.inj_div. simpl.
    pose proof (Z.div_mod (Z.of_nat (String.length s)) 8).
    pose proof (Z.mod_pos_bound (Z.of_nat (String.length s)) 8).
    pose proof (Z.div_mod (Z.of_nat (String.length s + 7)) 8).
    pose proof (Z.mod_pos_bound (Z.of_nat (String.length s + 7)) 8).
    lia.
Qed.

Lemma byte_facts b :
  is_byte b →
  sprintf_0b 8 b = byte_bits_msb b ∧ is_bits (sprintf_0b 8 b) = true ∧
  String.length (sprintf_0b 8 b) = 8%nat ∧ bits_value (sprintf_0b 8 b) = b.
Proof.
  intros Hb. assert (byte_ok b = true) as Hok.
  { apply byte_forall; [by vm_compute|done]. }
  unfold byte_ok in Hok. unpack_checks Hok. done.
Qed.

Lemma word_index_facts c :
  is_bits c = true → String.length c = 11%nat →
  intToBin (binToInt c) _bitChunkSizeBip39WordIndex = c ∧
  (0 ≤ binToInt c ∧ binToInt c < 2048) ∧ binToInt c = bits_value c.
Proof.
  intros Hc Hl. assert (word_index_ok c = true) as Hok.
  { eapply bits_forall; [|done|done]. by vm_compute. }
  unfold word_index_ok in Hok. unpack_checks Hok. done.
Qed.

Lemma bytesToBin_acc l acc :
  fold_left (λ val n, val +:+ sprintf_0b 8 n) l acc = acc +:+ bytesToBin l.
Proof.
  unfold bytesToBin. revert acc. induction l as [|b l IH]; intros acc; simpl.
  - by rewrite str_app_nil_r.
  - rewrite IH, (IH (String.append "" _)). by rewrite str_app_assoc.
Qed.

Lemma bytesToBin_cons b l : bytesToBin (b :: l) = sprintf_0b 8 b +:+ bytesToBin l.
Proof. unfold bytesToBin at 1. simpl. by rewrite bytesToBin_acc. Qed.

Lemma bytesToBin_bits_msb l : Forall is_byte l → bytesToBin l = bits_msb l.
Proof.
  induction 1 as [|b l Hb _ IH]; [done|].
  rewrite bytesToBin_cons, IH. simpl. by destruct (byte_facts b Hb) as (-> & _).
Qed.

Lemma bytesToBin_length l :
  Forall is_byte l → String.length (bytesToBin l) = (8 * length l)%nat.
Proof.
  induction 1 as [|b l Hb _ IH]; [done|].
  rewrite bytesToBin_cons, str_length_app, IH.
  destruct (byte_facts b Hb) as (_ & _ & -> & _). simpl. lia.
Qed.

Lemma bytesToBin_is_bits l : Forall is_byte l → is_bits (bytesToBin l) = true.
Proof.
  induction 1 as [|b l Hb _ IH]; [done|].
  rewrite bytesToBin_cons, is_bits_app, IH.
  by destruct (byte_facts b Hb) as (_ & -> & _).
Qed.

Lemma pack_byte_full g : String.length g = 8%nat → pack_byte g = bits_value g.
Proof. intros Hg. unfold pack_byte, len. rewrite Hg. by rewrite Z.shiftl_0_r. Qed.

Lemma packed_bytesToBin l : Forall is_byte l → packed (bytesToBin l) = l.
Proof.
  induction 1 as [|b l Hb Hl IH]; [done|].
  destruct (byte_facts b Hb) as (_ & _ & Hlen & Hv).
  rewrite packed_step by (rewrite bytesToBin_length by (by constructor); simpl; lia).
  rewrite bytesToBin_cons. rewrite <- Hlen at 1 3.
  rewrite str_take_app, str_drop_app, IH, pack_byte_full, Hv by done. done.
Qed.

(** Packing undoes the expansion of bytes to bits. *)
Lemma binToBytes_bytesToBin l :
  Forall is_byte l → binToBytes (bytesToBin l) = Returns l.
Proof.
  intros Hl. rewrite binToBytes_packed by (by apply bytesToBin_is_bits).
  by rewrite packed_bytesToBin.
Qed.

(** ** Loops *)

Lemma foldM_app {A S} (f : S → A → outcome S) st l1 l2 :
  foldM f st (l1 ++ l2) = st' ← foldM f st l1; foldM f st' l2.
Proof.
  revert st. induction l1 as [|x l1 IH]; intros st; [done|].
  simpl. destruct (f st x) as [st'|]; [apply IH|done].
Qed.

(** A loop that appends one computed element per round. *)
Lemma foldM_append {A X} (f : X → outcome A) (g : X → A) (l : list X) acc :
  (∀ x, x ∈ l → f x = Returns (g x)) →
  foldM (λ chunks x, c ← f x; Returns (chunks ++ [c])) acc l
  = Returns (acc ++ (g <$> l)).
Proof.
  revert acc. induction l as [|x l IH]; intros acc Hf; simpl.
  - by rewrite app_nil_r.
  - rewrite Hf by left. rewrite !bind_Returns, IH.
    + by rewrite <- app_assoc.
    + intros y Hy. apply Hf. by right.
Qed.

(** A loop that writes slot [j] of an array in round [j]. *)
Lemma foldM_fill {A X} (step : list A → X → outcome (list A)) (val : X → A)
    (l : list X) (a : list A) :
  (∀ acc j x, l !! j = Some x → length acc = length a →
     step acc x = Returns (<[j := val x]> acc)) →
  (length l ≤ length a)%nat →
  foldM step a l = Returns ((val <$> l) ++ drop (length l) a).
Proof.
  induction l as [|x l IH] using rev_ind; intros Hstep Hl.
  - simpl. by rewrite drop_0.
  - rewrite length_app in Hl. simpl in Hl.
    rewrite foldM_app, IH; [|intros acc j y Hj; apply Hstep; by apply lookup_app_l_Some|lia].
    rewrite bind_Returns. simpl.
    rewrite (Hstep _ (length l) x).
    + rewrite bind_Returns. f_equal.
      rewrite fmap_app, length_app. simpl.
      rewrite <- (length_fmap val l) at 1.
      rewrite insert_app_r_alt by lia. rewrite Nat.sub_diag.
      destruct (drop (length l) a) as [|y r] eqn:Hd.
      { apply (f_equal length) in Hd. rewrite length_drop in Hd. simpl in Hd. lia. }
      simpl. rewrite <- app_assoc. simpl. do 2 f_equal.
      rewrite <- (drop_drop a 1 (length l)). by rewrite Hd.
    + by rewrite lookup_app_r, Nat.sub_diag.
    + rewrite length_app, length_fmap, length_drop. lia.
Qed.

Lemma fmap_snd_zip {A B C} (f : B → C) (l1 : list A) (l2 : list B) :
  (length l2 ≤ length l1)%nat → (λ x, f x.2) <$> zip l1 l2 = f <$> l2.
Proof.
  intros Hl. change (λ x : A * B, f x.2) with (f ∘ @snd A B).
  by rewrite list_fmap_compose, snd_zip.
Qed.

Lemma index_ok {A} (a : list A) k x :
  a !! k = Some x → index a (Z.of_nat k) = Returns x.
Proof.
  intros Hk. unfold index. rewrite bool_decide_eq_true_2 by lia.
  by rewrite Nat2Z.id, Hk.
Qed.

Lemma seqZ_seq n : seqZ 0 (Z.of_nat n) = Z.of_nat <$> seq 0 n.
Proof.
  induction n as [|n IH]; [done|].
  rewrite seqZ_S, seq_S, fmap_app, IH. done.
Qed.

(** ** Splitting into chunks *)

Lemma group_slice (size : nat) s (j : nat) :
  (size * S j ≤ String.length s)%nat →
  str_slice s (Z.of_nat j * Z.of_nat size) ((Z.of_nat j + 1) * Z.of_nat size)
  = Returns (group size s j).
Proof.
  intros Hj. rewrite str_slice_ok by (unfold len; nia).
  unfold group. do 3 f_equal; nia.
Qed.

Lemma chunkSplit_groups s (size : nat) :
  (0 < size)%nat →
  chunkSplit s (Z.of_nat size)
  = Returns (group size s <$> seq 0 (String.length s `div` size)).
Proof.
  intros Hsize. unfold chunkSplit.
  rewrite bool_decide_eq_false_2 by lia.
  assert (len s `quot` Z.of_nat size = Z.of_nat (String.length s `div` size)) as Hq.
  { unfold len. rewrite Z.quot_div_nonneg by lia. by rewrite Nat2Z.inj_div. }
  rewrite Hq, bool_decide_eq_false_2 by lia.
  rewrite seqZ_seq.
  rewrite (foldM_append _ (λ k, group size s (Z.to_nat k))).
  - simpl. rewrite <- list_fmap_compose. f_equal. apply list_fmap_ext.
    intros _ j _. simpl. by rewrite Nat2Z.id.
  - intros k [j [-> Hj]]%list_elem_of_fmap. apply elem_of_seq in Hj.
    rewrite group_slice, Nat2Z.id; [done|].
    pose proof (Nat.Div0.mul_div_le (String.length s) size). nia.
Qed.

(** ** The dictionary *)

Lemma build_dict_notin ws k d w :
  w ∉ ws → build_dict ws k d !! w = d !! w.
Proof.
  revert k d. induction ws as [|w0 ws IH]; intros k d Hw; [done|].
  apply not_elem_of_cons in Hw as [Hne Hw]. simpl.
  rewrite IH by done. by rewrite lookup_insert_ne.
Qed.

Lemma build_dict_NoDup ws k d j w :
  NoDup ws → ws !! j = Some w → build_dict ws k d !! w = Some (k + Z.of_nat j).
Proof.
  revert k d j. induction ws as [|w0 ws IH]; intros k d j Hnd Hj; [done|].
  apply NoDup_cons in Hnd as [Hw0 Hnd]. simpl. destruct j as [|j]; simpl in Hj.
  - injection Hj as ->. rewrite build_dict_notin by done.
    rewrite lookup_insert_eq. f_equal. lia.
  - rewrite (IH _ _ j) by done. f_equal. lia.
Qed.

Lemma build_dict_is_Some ws k d w :
  is_Some (build_dict ws k d !! w) ↔ w ∈ ws ∨ is_Some (d !! w).
Proof.
  revert k d. induction ws as [|w0 ws IH]; intros k d; simpl.
  - split; [by right|]. intros [Hw|Hw]; [by apply elem_of_nil in Hw|done].
  - rewrite IH, elem_of_cons. destruct (decide (w = w0)) as [->|Hne].
    + rewrite lookup_insert_eq. split; [by left; left|by right].
    + rewrite lookup_insert_ne by done. intuition congruence.
Qed.

Lemma build_dict_index ws k d w v :
  build_dict ws k d !! w = Some v →
  (∃ j, ws !! j = Some w ∧ v = k + Z.of_nat j) ∨ d !! w = Some v.
Proof.
  revert k d. induction ws as [|w0 ws IH]; intros k d Hv; simpl in Hv; [by right|].
  apply IH in Hv as [(j & Hj & ->)|Hv].
  - left. exists (S j). split; [done|lia].
  - destruct (decide (w0 = w)) as [->|Hne].
    + rewrite lookup_insert_eq in Hv. injection Hv as <-.
      left. exists 0%nat. split; [done|lia].
    + rewrite lookup_insert_ne in Hv by done. by right.
Qed.

Lemma New_Some ws m :
  New ws = (Some m, None) →
  length ws = 2048%nat ∧ words m = ws ∧ dict m = build_dict ws 0 ∅.
Proof.
  unfold New. case_bool_decide as Hl; [done|]. intros [= <-].
  split; [lia|done].
Qed.

Lemma dictionary_length m : dictionary m → length (words m) = 2048%nat.
Proof. intros (ws & _ & Hm). apply New_Some in Hm as (? & -> & _). done. Qed.

Lemma dictionary_lookup m j w :
  dictionary m → words m !! j = Some w → dict m !! w = Some (Z.of_nat j).
Proof.
  intros (ws & Hnd & Hm) Hj. apply New_Some in Hm as (_ & Hw & ->).
  rewrite Hw in Hj. by rewrite (build_dict_NoDup _ _ _ j).
Qed.

(** ** The strength tables *)

Lemma strength_supported size :
  supported_size size →
  map_get _sentenceStrengths size = 32 * (size `quot` 3) ∧
  validateStrength (map_get _sentenceStrengths size) = None.
Proof. intros Hs. unfold supported_size in Hs. destruct_or!; subst size; done. Qed.

Lemma strength_unsupported size :
  ¬ supported_size size → map_get _sentenceStrengths size = 0.
Proof.
  intros Hs. unfold supported_size in Hs. unfold map_get, _sentenceStrengths.
  rewrite !lookup_insert_ne by (intros <-; apply Hs; tauto). done.
Qed.

Lemma validateStrength_0 : validateStrength 0 = Some (UnsupportedStrength 0).
Proof. done. Qed.

(** ** Validation of the passcode *)

Lemma atoi_digits_ok s n :
  all_digits s = true → snd (atoi_digits s n) = None.
Proof.
  revert n. induction s as [|c s IH]; intros n Hs; [done|].
  change (all_digits (String c s)) with (is_digit c && all_digits s) in Hs.
  apply andb_true_iff in Hs as [Hc Hs].
  unfold is_digit in Hc. apply bool_decide_eq_true in Hc.
  change (atoi_digits (String c s) n) with
    (if bool_decide (9 < wrap8 (code c - 48)) then (0, Some ErrSyntax)
     else atoi_digits s (n * 10 + wrap8 (code c - 48))).
  rewrite bool_decide_eq_false_2; [by apply IH|].
  unfold wrap8. rewrite Z.mod_small by lia. lia.
Qed.

Lemma Atoi_digits s :
  all_digits s = true → 0 < len s < 19 → snd (Atoi s) = None.
Proof.
  intros Hs Hl. unfold Atoi. rewrite bool_decide_eq_true_2 by (exact Hl).
  destruct s as [|c s]; [unfold len in Hl; simpl in Hl; lia|].
  pose proof Hs as Hs'.
  change (all_digits (String c s)) with (is_digit c && all_digits s) in Hs'.
  apply andb_true_iff in Hs' as [Hc _].
  assert (c ≠ "-"%char ∧ c ≠ "+"%char) as [Hm Hp].
  { split; intros ->; by vm_compute in Hc. }
  rewrite !bool_decide_eq_false_2 by done. cbn [orb andb].
  pose proof (atoi_digits_ok (String c s) 0 Hs) as Hd.
  destruct (atoi_digits (String c s) 0) as [n [e|]]; [done|done].
Qed.

(** ** Groups of a string *)

Lemma group_unique size s a b c j :
  s = a +:+ b +:+ c → String.length a = (size * j)%nat → String.length b = size →
  group size s j = b.
Proof.
  intros -> Ha Hb. unfold group. rewrite <- Ha, str_drop_app.
  by rewrite <- Hb, str_take_app.
Qed.

Lemma group_decomp size s j :
  (size * S j ≤ String.length s)%nat →
  s = str_take (size * j) s +:+ group size s j +:+ str_drop (size * S j) s ∧
  String.length (str_take (size * j) s) = (size * j)%nat ∧
  String.length (group size s j) = size.
Proof.
  intros Hj. split; [|split].
  - unfold group.
    replace (size * S j)%nat with (size * j + size)%nat by lia.
    rewrite <- (str_drop_drop size (size * j) s).
    by rewrite (str_take_drop size), (str_take_drop (size * j)).
  - rewrite str_length_take. lia.
  - unfold group. rewrite str_length_take, str_length_drop. lia.
Qed.

Lemma group_app_l size s t j :
  (size * S j ≤ String.length s)%nat →
  group size (s +:+ t) j = group size s j.
Proof.
  intros Hj. destruct (group_decomp size s j Hj) as (Hs & Ha & Hb).
  eapply group_unique; [|exact Ha|exact Hb].
  rewrite Hs at 1. by rewrite !str_app_assoc.
Qed.

Lemma group_take size s n j :
  (size * S j ≤ n)%nat → (n ≤ String.length s)%nat →
  group size (str_take n s) j = group size s j.
Proof.
  intros Hj Hn. rewrite <- (str_take_drop n s) at 2.
  rewrite group_app_l; [done|]. rewrite str_length_take. lia.
Qed.

Lemma is_bits_group size s j : is_bits s = true → is_bits (group size s j) = true.
Proof. intros Hs. unfold group. by apply is_bits_take, is_bits_drop. Qed.

Lemma is_bit_bit_char x : is_bit (bit_char x) = true.
Proof. by destruct x. Qed.

Lemma is_bits_byte_bits_msb b : is_bits (byte_bits_msb b) = true.
Proof.
  unfold byte_bits_msb. cbn [foldr is_bits]. by rewrite !is_bit_bit_char.
Qed.

Lemma word_at_index m c :
  length (words m) = 2048%nat → is_bits c = true → String.length c = 11%nat →
  index (words m) (binToInt c) = Returns (word_at m (binToInt c)).
Proof.
  intros Hm Hc Hl. destruct (word_index_facts c Hc Hl) as (_ & Hr & _).
  destruct (lookup_lt_is_Some_2 (words m) (Z.to_nat (binToInt c))) as [w Hw]; [lia|].
  unfold word_at. rewrite Hw. simpl.
  rewrite <- (Z2Nat.id (binToInt c)) at 1 by lia. by apply index_ok.
Qed.

Lemma code_range c : 0 ≤ code c < 256.
Proof. unfold code. pose proof (nat_ascii_bounded c). lia. Qed.

Lemma atoi_digits_iff s n :
  snd (atoi_digits s n) = None ↔ all_digits s = true.
Proof.
  revert n. induction s as [|c s IH]; intros n; [done|].
  change (all_digits (String c s)) with (is_digit c && all_digits s).
  change (atoi_digits (String c s) n) with
    (if bool_decide (9 < wrap8 (code c - 48)) then (0, Some ErrSyntax)
     else atoi_digits s (n * 10 + wrap8 (code c - 48))).
  pose proof (code_range c) as Hc. unfold is_digit.
  destruct (decide (48 ≤ code c ∧ code c ≤ 57)) as [Hd|Hd].
  - rewrite (bool_decide_eq_true_2 _ Hd), bool_decide_eq_false_2.
    + by rewrite IH.
    + unfold wrap8. rewrite Z.mod_small by lia. lia.
  - rewrite (bool_decide_eq_false_2 _ Hd), bool_decide_eq_true_2; [done|].
    unfold wrap8. destruct (decide (code c < 48)).
    + replace (code c - 48) with (code c + 208 + (-1) * 256) by lia.
      rewrite Z.mod_add, Z.mod_small by lia. lia.
    + rewrite Z.mod_small by lia. lia.
Qed.

(** What the numeric check of [Generate] accepts among the passcodes of six
    characters: six digits, or a sign and five digits. *)
Lemma Atoi_six passcode :
  len passcode = 6 →
  snd (Atoi passcode) = None ↔
    all_digits passcode = true ∨
    ∃ c rest, passcode = String c rest ∧ (c = "+"%char ∨ c = "-"%char) ∧
              all_digits rest = true.
Proof.
  intros Hl. unfold Atoi. rewrite bool_decide_eq_true_2 by lia.
  destruct passcode as [|c rest]; [done|].
  assert (len rest = 5) as Hr by (unfold len in *; simpl in Hl; lia).
  destruct (decide (c = "-"%char)) as [->|Hm].
  { rewrite bool_decide_eq_true_2 by done. cbn [orb andb].
    rewrite bool_decide_eq_false_2 by lia.
    pose proof (atoi_digits_iff rest 0) as Hd.
    destruct (atoi_digits rest 0) as [n [e|]]; cbn [snd] in *.
    - split; [done|]. intros [Ha|(c & r & [= <- <-] & _ & Ha)]; [done|].
      by apply Hd in Ha.
    - split; [|done]. intros _. right. exists "-"%char, rest. rewrite <- Hd. tauto. }
  destruct (decide (c = "+"%char)) as [->|Hp].
  { rewrite bool_decide_eq_false_2 by done. rewrite bool_decide_eq_true_2 by done.
    cbn [orb andb]. rewrite bool_decide_eq_false_2 by lia.
    pose proof (atoi_digits_iff rest 0) as Hd.
    destruct (atoi_digits rest 0) as [n [e|]]; cbn [snd] in *.
    - split; [done|]. intros [Ha|(c & r & [= <- <-] & _ & Ha)]; [done|].
      by apply Hd in Ha.
    - split; [|done]. intros _. right. exists "+"%char, rest. rewrite <- Hd. tauto. }
  rewrite !bool_decide_eq_false_2 by done. cbn [orb andb].
  pose proof (atoi_digits_iff (String c rest) 0) as Hd.
  destruct (atoi_digits (String c rest) 0) as [n [e|]]; cbn [snd] in *.
  - split; [done|]. intros [Ha|(c' & r & [= <- <-] & [->| ->] & Ha)]; [|done..].
    by apply Hd in Ha.
  - split; [|done]. intros _. left. by apply Hd.
Qed.

Section Derivation.
Context `{Primitives}.

Lemma checksum_ok entropy (size : nat) :
  (size ≤ 8)%nat →
  checksum entropy (Z.of_nat size) = Returns (checksum_bits entropy size).
Proof.
  intros Hs. unfold checksum, checksum_bits, digest_head.
  pose proof (sha256_Sum256_length entropy) as Hl.
  pose proof (sha256_Sum256_bytes entropy) as Hb.
  destruct (sha256_Sum256 entropy) as [|b sum]; [done|].
  apply Forall_cons in Hb as [Hb _].
  destruct (byte_facts b Hb) as (Heq & _ & Hlen & _).
  rewrite (index_ok _ 0 b) by done. rewrite bind_Returns.
  rewrite str_slice_ok by (unfold len; lia).
  rewrite Z.sub_0_r, Nat2Z.id. change (Z.to_nat 0) with 0%nat.
  by rewrite str_drop_0, Heq.
Qed.

Lemma checksum_bits_length entropy (size : nat) :
  (size ≤ 8)%nat → String.length (checksum_bits entropy size) = size.
Proof.
  intros Hs. unfold checksum_bits. rewrite str_length_take.
  assert (String.length (byte_bits_msb (digest_head entropy)) = 8%nat) as ->; [done|lia].
Qed.

Lemma scrypt_Key_accepts password salt keyLen :
  scrypt_Key password salt (Z.shiftl 1 18) 8 1 keyLen
  = (scrypt_derive password salt 262144 8 1 keyLen, None).
Proof. done. Qed.

Lemma xor_loop (A B : list Z) (n : nat) :
  length A = n → length B = n →
  foldM (λ entropy k, a ← index A k; b ← index B k; store entropy k (Z.lxor a b))
        (replicate n 0) (seqZ 0 (Z.of_nat n))
  = Returns (zip_with Z.lxor A B).
Proof.
  intros HA HB.
  rewrite (foldM_fill _ (λ k, Z.lxor (A !!! Z.to_nat k) (B !!! Z.to_nat k))).
  - rewrite length_seqZ, Nat2Z.id, drop_ge, app_nil_r by (by rewrite length_replicate).
    f_equal. apply list_eq. intros j.
    rewrite list_lookup_fmap, lookup_zip_with.
    destruct (decide (j < n)%nat) as [Hj|Hj].
    + rewrite lookup_seqZ_lt by lia. simpl. rewrite Z.add_0_l, Nat2Z.id.
      destruct (lookup_lt_is_Some_2 A j) as [a Ha]; [lia|].
      destruct (lookup_lt_is_Some_2 B j) as [b Hb]; [lia|].
      rewrite Ha, Hb. simpl.
      by rewrite (list_lookup_total_correct _ _ _ Ha), (list_lookup_total_correct _ _ _ Hb).
    + rewrite lookup_seqZ_ge by lia. rewrite (lookup_ge_None_2 A) by lia. done.
  - intros acc j k Hj Hacc. apply lookup_seqZ in Hj as [-> Hj].
    rewrite length_replicate in Hacc. rewrite Z.add_0_l, Nat2Z.id.
    destruct (lookup_lt_is_Some_2 A j) as [a Ha]; [lia|].
    destruct (lookup_lt_is_Some_2 B j) as [b Hb]; [lia|].
    rewrite (index_ok _ _ _ Ha), bind_Returns, (index_ok _ _ _ Hb), bind_Returns.
    rewrite store_ok by lia. rewrite Nat2Z.id.
    by rewrite (list_lookup_total_correct _ _ _ Ha), (list_lookup_total_correct _ _ _ Hb).
  - rewrite length_seqZ, length_replicate. lia.
Qed.
End Derivation.

Section Encoding.
Context `{Primitives}.

Lemma is_bits_checksum_bits entropy size :
  is_bits (checksum_bits entropy size) = true.
Proof. apply is_bits_take, is_bits_byte_bits_msb. Qed.

(** What [encodeWords] returns, for an entropy of [strength] bits whose
    checksum has [cs] bits and whose mnemonic has [S k] words. *)
Lemma encodeWords_shape m entropy (strength : Z) (cs k : nat) :
  length (words m) = 2048%nat → Forall is_byte entropy →
  Z.of_nat (8 * length entropy) = strength →
  strength `quot` 32 = Z.of_nat cs → (1 ≤ cs ≤ 8)%nat →
  strength + Z.of_nat cs = 11 * Z.of_nat (S k) →
  encodeWords m entropy strength
  = Returns ((λ j, word_at m (binToInt
               (group 11 (bytesToBin entropy +:+ checksum_bits entropy cs) j)))
             <$> seq 0 (S k)).
Proof.
  intros Hm Hbytes Hlen Hcs Hcsr Hk.
  pose proof (bytesToBin_length entropy Hbytes) as Hbl.
  pose proof (bytesToBin_is_bits entropy Hbytes) as Hbb.
  pose proof (checksum_bits_length entropy cs (proj2 Hcsr)) as Hcl.
  pose proof (is_bits_checksum_bits entropy cs) as Hcb.
  unfold encodeWords. set (bins := bytesToBin entropy) in *.
  set (csb := checksum_bits entropy cs) in *.
  unfold _bitChunkSizeEntropy, _bitChunkSizeBip39WordIndex. rewrite Hcs.
  replace ((strength + Z.of_nat cs) `quot` 11) with (Z.of_nat (S k))
    by (rewrite Hk, Z.mul_comm, Z.quot_mul; lia).
  replace (strength - (11 - Z.of_nat cs)) with (Z.of_nat (11 * k)) by lia.
  assert (len bins = strength) as Hlb by (unfold len; lia).
  rewrite (str_slice_ok bins (Z.of_nat (11 * k))) by lia.
  rewrite (str_slice_ok bins 0) by lia. rewrite bind_Returns.
  rewrite Z.sub_0_r, Nat2Z.id. change (Z.to_nat 0) with 0%nat. rewrite str_drop_0.
  change 11 with (Z.of_nat 11). rewrite chunkSplit_groups by lia.
  rewrite bind_Returns, str_length_take.
  replace ((11 * k) `min` String.length bins)%nat with (k * 11)%nat by lia.
  rewrite Nat.div_mul by lia.
  unfold make. rewrite bool_decide_eq_true_2 by lia. rewrite bind_Returns.
  rewrite length_fmap, length_seq, Nat2Z.id.
  rewrite (foldM_fill _ (λ x, word_at m (binToInt x.2))).
  - rewrite bind_Returns, checksum_ok by lia. rewrite !bind_Returns.
    fold csb.
    rewrite (str_take_all (Z.to_nat (len bins - Z.of_nat (11 * k))))
      by (rewrite str_length_drop; unfold len; lia).
    assert (String.length (str_drop (11 * k) bins +:+ csb) = 11%nat) as Hlast.
    { rewrite str_length_app, str_length_drop. lia. }
    rewrite word_at_index;
      [|done|by rewrite is_bits_app, is_bits_drop, Hcb|done].
    rewrite bind_Returns, length_zip, length_seqZ, length_fmap, length_seq.
    rewrite Nat2Z.id, Nat.min_id.
    rewrite store_ok.
    + f_equal. replace (Z.to_nat (Z.of_nat (S k) - 1)) with k by lia.
      rewrite (fmap_snd_zip (λ x, word_at m (binToInt x)))
        by (rewrite length_seqZ, length_fmap, length_seq; lia).
      set (L := (λ x, word_at m (binToInt x)) <$> _).
      assert (length L = k) as HL by (unfold L; by rewrite !length_fmap, length_seq).
      rewrite drop_replicate. replace (S k - k)%nat with 1%nat by lia.
      rewrite (insert_app_r_alt L _ k) by lia. rewrite HL, Nat.sub_diag.
      cbn [replicate insert list_insert].
      rewrite seq_S, fmap_app. f_equal.
      * unfold L. rewrite <- list_fmap_compose. apply list_fmap_ext.
        intros i j Hj. apply lookup_seq in Hj as [-> Hj]. cbn [compose Nat.add].
        rewrite group_take by lia. rewrite group_app_l by lia. done.
      * cbn [fmap list_fmap Nat.add]. do 3 f_equal. symmetry.
        eapply (group_unique 11 _ (str_take (11 * k) bins) _ "");
          [|rewrite str_length_take; lia|exact Hlast].
        rewrite str_app_nil_r. rewrite <- str_app_assoc.
        by rewrite str_take_drop.
    + lia.
    + rewrite length_app, !length_fmap, length_zip, length_seqZ, length_fmap,
        length_seq, length_drop, length_replicate. lia.
  - intros acc j [i wi] Hj Hacc. rewrite length_replicate in Hacc.
    apply lookup_zip_Some in Hj as [Hi Hwi].
    apply lookup_seqZ in Hi as [-> Hi].
    rewrite list_lookup_fmap in Hwi.
    assert (j < k)%nat as Hjk by lia.
    rewrite lookup_seq_lt in Hwi by done. simpl in Hwi. injection Hwi as <-.
    destruct (group_decomp 11 (str_take (11 * k) bins) j) as (_ & _ & Hgl).
    { rewrite str_length_take. lia. }
    rewrite word_at_index; [|done|by apply is_bits_group, is_bits_take|done].
    rewrite bind_Returns, Z.add_0_l, store_ok by lia. by rewrite Nat2Z.id.
  - rewrite length_zip, length_seqZ, length_fmap, length_seq, length_replicate. lia.
Qed.
End Encoding.

Lemma shape_supported size :
  supported_size size → ∃ strength cs k, shape size strength cs k.
Proof.
  unfold supported_size, shape. intros Hs. destruct_or!; subst size.
  - exists 128, 4%nat, 11%nat. tauto.
  - exists 160, 5%nat, 14%nat. tauto.
  - exists 192, 6%nat, 17%nat. tauto.
  - exists 224, 7%nat, 20%nat. tauto.
  - exists 256, 8%nat, 23%nat. tauto.
Qed.

Lemma shape_facts size strength cs k :
  shape size strength cs k →
  supported_size size ∧
  map_get _sentenceStrengths size = strength ∧ strength_of size = strength ∧
  validateStrength strength = None ∧
  size = Z.of_nat (S k) ∧
  strength `quot` _bitChunkSizeOneByte = strength `div` 8 ∧
  0 ≤ strength `div` 8 ∧ Z.of_nat (8 * Z.to_nat (strength `div` 8)) = strength ∧
  strength `quot` 32 = Z.of_nat cs ∧ (1 ≤ cs ≤ 8)%nat ∧
  strength + Z.of_nat cs = 11 * Z.of_nat (S k).
Proof.
  unfold shape, supported_size. intros Hs.
  destruct_or!; destruct_and!; subst; repeat split; try done; try lia; tauto.
Qed.

Lemma lxor_byte a b : is_byte a → is_byte b → is_byte (Z.lxor a b).
Proof.
  unfold is_byte. intros Ha Hb.
  assert (0 ≤ Z.lxor a b) as Hn by (apply Z.lxor_nonneg; lia).
  split; [done|].
  destruct (decide (Z.lxor a b = 0)) as [->|Hz]; [done|].
  apply (Z.log2_lt_pow2 _ 8); [lia|].
  pose proof (Z.log2_lxor a b ltac:(lia) ltac:(lia)) as Hl.
  assert (∀ x, 0 ≤ x < 256 → Z.log2 x < 8) as Hlog.
  { intros x Hx. destruct (decide (x = 0)) as [->|Hx0]; [done|].
    apply Z.log2_lt_pow2; lia. }
  pose proof (Hlog a Ha). pose proof (Hlog b Hb). lia.
Qed.

Lemma Forall_zip_with_lxor A B :
  Forall is_byte A → Forall is_byte B → Forall is_byte (zip_with Z.lxor A B).
Proof.
  intros HA. revert B. induction HA as [|a A Ha _ IH]; intros B HB; [done|].
  destruct HB as [|b B Hb HB]; [done|]. simpl.
  constructor; [by apply lxor_byte|by apply IH].
Qed.

(** Concatenating the groups of a string gives the string back. *)
Lemma concat_groups size n : ∀ s,
  String.length s = (size * n)%nat →
  foldr String.append "" (group size s <$> seq 0 n) = s.
Proof.
  induction n as [|n IH]; intros s Hs.
  - destruct s; [done|]. simpl in Hs. lia.
  - cbn [seq fmap list_fmap foldr]. rewrite <- fmap_S_seq, <- list_fmap_compose.
    rewrite (list_fmap_ext _ (group size (str_drop size s)) (seq 0 n)).
    + rewrite IH by (rewrite str_length_drop; lia).
      rewrite group_0. apply str_take_drop.
    + intros _ j _. simpl. apply group_S.
Qed.

Section Generation.
Context `{Primitives}.

Lemma stream_A_length identifier password passcode size strength cs k :
  shape size strength cs k →
  length (stream_A identifier password passcode size) = Z.to_nat (strength `div` 8).
Proof.
  intros Hs. destruct (shape_facts _ _ _ _ Hs) as (_ & _ & Hst & _ & _ & _ & Hp & _).
  unfold stream_A. rewrite pbkdf2_Key_length; rewrite Hst; done.
Qed.

Lemma stream_B_length identifier password passcode size strength cs k :
  shape size strength cs k →
  length (stream_B identifier password passcode size) = Z.to_nat (strength `div` 8).
Proof.
  intros Hs. destruct (shape_facts _ _ _ _ Hs) as (_ & _ & Hst & _ & _ & _ & Hp & _).
  unfold stream_B. change 262144 with (Z.shiftl 1 18).
  rewrite scrypt_Key_accepts. simpl. rewrite scrypt_derive_length; rewrite Hst; done.
Qed.

Lemma entropy_of_length identifier password passcode size strength cs k :
  shape size strength cs k →
  length (entropy_of identifier password passcode size) = Z.to_nat (strength `div` 8).
Proof.
  intros Hs. unfold entropy_of.
  rewrite length_zip_with, (stream_A_length _ _ _ _ _ _ _ Hs),
    (stream_B_length _ _ _ _ _ _ _ Hs). lia.
Qed.

Lemma entropy_of_bytes identifier password passcode size :
  Forall is_byte (entropy_of identifier password passcode size).
Proof.
  apply Forall_zip_with_lxor; [apply pbkdf2_Key_bytes|].
  unfold stream_B, scrypt_Key.
  repeat case_match; simpl; [done|done|apply scrypt_derive_bytes].
Qed.

Lemma deriveEntropy_ok identifier password passcode size strength cs k :
  shape size strength cs k →
  deriveEntropy identifier password passcode size strength
  = Returns (entropy_of identifier password passcode size).
Proof.
  intros Hs.
  pose proof (stream_A_length identifier password passcode _ _ _ _ Hs) as HA.
  pose proof (stream_B_length identifier password passcode _ _ _ _ Hs) as HB.
  destruct (shape_facts _ _ _ _ Hs) as (_ & _ & Hst & _ & _ & Hq & Hp & _).
  unfold deriveEntropy. rewrite Hq.
  unfold make. rewrite bool_decide_eq_true_2 by done. rewrite bind_Returns.
  rewrite scrypt_Key_accepts. cbn [fst].
  unfold entropy_of, stream_A, stream_B in *.
  change 262144 with (Z.shiftl 1 18) in *.
  rewrite scrypt_Key_accepts in *. cbn [fst] in *. rewrite Hst in *.
  pose proof (xor_loop _ _ _ HA HB) as Hx.
  rewrite Z2Nat.id in Hx by done. exact Hx.
Qed.
End Generation.

(** ** Words and their indices *)

Lemma dict_word_at m c :
  dictionary m → is_bits c = true → String.length c = 11%nat →
  dict m !! word_at m (bits_value c) = Some (bits_value c).
Proof.
  intros Hm Hc Hl. destruct (word_index_facts c Hc Hl) as (_ & Hr & Hv).
  rewrite <- Hv.
  destruct (lookup_lt_is_Some_2 (words m) (Z.to_nat (binToInt c))) as [w Hw].
  { rewrite dictionary_length by done. lia. }
  unfold word_at. rewrite Hw. simpl.
  rewrite (dictionary_lookup _ _ _ Hm Hw). f_equal. lia.
Qed.

Lemma validate_words m chunks :
  dictionary m →
  Forall (λ c, is_bits c = true ∧ String.length c = 11%nat) chunks →
  validateWordsPrecense m ((λ c, word_at m (bits_value c)) <$> chunks) = None.
Proof.
  intros Hm. induction 1 as [|c chunks [Hc Hl] _ IH]; [done|].
  cbn [fmap list_fmap validateWordsPrecense].
  by rewrite dict_word_at.
Qed.

Lemma decode_words m chunks acc :
  dictionary m →
  Forall (λ c, is_bits c = true ∧ String.length c = 11%nat) chunks →
  fold_left (λ bins w,
      bins +:+ intToBin (map_get (dict m) w) _bitChunkSizeBip39WordIndex)
    ((λ c, word_at m (bits_value c)) <$> chunks) acc
  = acc +:+ foldr String.append "" chunks.
Proof.
  intros Hm Hch. revert acc. induction Hch as [|c chunks [Hc Hl] _ IH]; intros acc.
  - simpl. by rewrite str_app_nil_r.
  - cbn [fmap list_fmap fold_left foldr]. rewrite IH.
    unfold map_get. rewrite dict_word_at by done. simpl.
    destruct (word_index_facts c Hc Hl) as (Hi & _ & Hv).
    rewrite <- Hv, Hi. by rewrite str_app_assoc.
Qed.

Lemma Forall_groups size s n :
  is_bits s = true → String.length s = (size * n)%nat →
  Forall (λ c, is_bits c = true ∧ String.length c = size) (group size s <$> seq 0 n).
Proof.
  intros Hs Hl. apply Forall_fmap, Forall_forall. intros j Hj%elem_of_seq.
  split; [by apply is_bits_group|].
  apply (group_decomp size s j). nia.
Qed.

Section RoundTrip.
Context `{Primitives}.

Lemma sentence_bits_facts entropy strength cs k :
  Forall is_byte entropy → Z.of_nat (8 * length entropy) = strength →
  (1 ≤ cs ≤ 8)%nat → strength + Z.of_nat cs = 11 * Z.of_nat (S k) →
  sentence_bits entropy cs = bytesToBin entropy +:+ checksum_bits entropy cs ∧
  is_bits (sentence_bits entropy cs) = true ∧
  String.length (sentence_bits entropy cs) = (11 * S k)%nat ∧
  len (bytesToBin entropy) = strength.
Proof.
  intros Hb Hl Hcs Hk. unfold sentence_bits.
  rewrite <- bytesToBin_bits_msb by done.
  pose proof (bytesToBin_length entropy Hb) as Hbl.
  split; [done|split; [|split]].
  - by rewrite is_bits_app, bytesToBin_is_bits, is_bits_checksum_bits.
  - rewrite str_length_app, checksum_bits_length by lia. lia.
  - unfold len. lia.
Qed.

Lemma sentence_groups m entropy cs n :
  sentence m entropy cs n
  = (λ c, word_at m (bits_value c))
      <$> (group 11 (sentence_bits entropy cs) <$> seq 0 n).
Proof. unfold sentence. by rewrite <- list_fmap_compose. Qed.

Lemma encodeWords_sentence m entropy strength cs k :
  length (words m) = 2048%nat → Forall is_byte entropy →
  Z.of_nat (8 * length entropy) = strength →
  strength `quot` 32 = Z.of_nat cs → (1 ≤ cs ≤ 8)%nat →
  strength + Z.of_nat cs = 11 * Z.of_nat (S k) →
  encodeWords m entropy strength = Returns (sentence m entropy cs (S k)).
Proof.
  intros Hm Hb Hl Hq Hcs Hk.
  destruct (sentence_bits_facts entropy strength cs k) as (Hsb & Hbits & Hlen & _);
    [done..|].
  rewrite (encodeWords_shape m entropy strength cs k) by done.
  f_equal. unfold sentence. rewrite Hsb in *.
  apply list_fmap_ext. intros i j Hj. apply lookup_seq in Hj as [-> Hj].
  cbn [Nat.add]. f_equal.
  apply word_index_facts; [by apply is_bits_group|].
  apply (group_decomp 11 _ i). lia.
Qed.

Lemma buildBins_sentence m entropy strength cs k :
  dictionary m → Forall is_byte entropy →
  Z.of_nat (8 * length entropy) = strength →
  validateStrength strength = None →
  (1 ≤ cs ≤ 8)%nat → strength + Z.of_nat cs = 11 * Z.of_nat (S k) →
  buildBins m strength (sentence m entropy cs (S k))
  = (sentence_bits entropy cs, None).
Proof.
  intros Hm Hb Hl Hv Hcs Hk.
  destruct (sentence_bits_facts entropy strength cs k) as (_ & Hbits & Hlen & _);
    [done..|].
  pose proof (Forall_groups 11 _ (S k) Hbits Hlen) as Hg.
  unfold buildBins. rewrite Hv, sentence_groups.
  rewrite validate_words by done.
  rewrite decode_words by done. by rewrite concat_groups.
Qed.

(** Decoding the sentence of an entropy: the checksum matches and the
    entropy comes back. *)
Lemma decode_sentence m entropy strength cs k :
  dictionary m → Forall is_byte entropy →
  Z.of_nat (8 * length entropy) = strength →
  map_get _sentenceStrengths (Z.of_nat (S k)) = strength →
  validateStrength strength = None →
  strength `quot` 32 = Z.of_nat cs → (1 ≤ cs ≤ 8)%nat →
  strength + Z.of_nat cs = 11 * Z.of_nat (S k) →
  IsValid m (sentence m entropy cs (S k)) = Returns (true, None) ∧
  CalculateEntropy m (sentence m entropy cs (S k)) = Returns (entropy, None).
Proof.
  intros Hm Hb Hl Hs Hv Hq Hcs Hk.
  destruct (sentence_bits_facts entropy strength cs k) as (Hsb & _ & _ & Hlb);
    [done..|].
  assert (length (sentence m entropy cs (S k)) = S k) as Hlen.
  { unfold sentence. by rewrite length_fmap, length_seq. }
  unfold IsValid, CalculateEntropy.
  rewrite Hlen, Hs, (buildBins_sentence m entropy strength cs k) by done.
  unfold _bitChunkSizeEntropy. rewrite Hq, Hsb, <- Hlb.
  rewrite str_slice_prefix, str_slice_suffix, !bind_Returns.
  rewrite binToBytes_bytesToBin by done. rewrite !bind_Returns.
  rewrite checksum_ok by lia. rewrite !bind_Returns.
  by rewrite bool_decide_eq_true_2.
Qed.

Lemma Generate_valid m identifier password passcode size strength cs k :
  length (words m) = 2048%nat →
  2 ≤ len identifier → 12 ≤ len password → len passcode = 6 →
  snd (Atoi passcode) = None →
  shape size strength cs k →
  Generate m identifier password passcode size
  = Returns (sentence m (entropy_of identifier password passcode size) cs (S k), None).
Proof.
  intros Hm Hi Hp Hc Ha Hs.
  destruct (shape_facts _ _ _ _ Hs)
    as (_ & Hst & _ & Hv & _ & _ & Hpos & Hl8 & Hq & Hcs & Hk).
  unfold Generate, _inputIdentifierMinLength, _inputPasswordMinLength,
    _inputPasscodeLength.
  rewrite !bool_decide_eq_false_2 by lia. rewrite Ha, Hst, Hv.
  rewrite (deriveEntropy_ok _ _ _ _ _ _ _ Hs), bind_Returns.
  rewrite (encodeWords_sentence m _ strength cs k); [done|done| | |done..].
  - apply entropy_of_bytes.
  - by rewrite (entropy_of_length _ _ _ _ _ _ _ Hs).
Qed.
End RoundTrip.

Lemma NoDup_all_bits n : NoDup (all_bits n).
Proof.
  induction n as [|n IH]; simpl.
  - apply NoDup_singleton.
  - apply NoDup_app. split; [|split].
    + apply NoDup_fmap_2; [by intros ?? [=]|done].
    + intros s [s0 [-> _]]%list_elem_of_fmap [s1 [Hs _]]%list_elem_of_fmap. done.
    + apply NoDup_fmap_2; [by intros ?? [=]|done].
Qed.

Lemma toy_dictionary : dictionary toy_mnemonicer.
Proof. exists toy_words. split; [apply NoDup_all_bits|done]. Qed.

Lemma dictionary_generator m : dictionary m → generator m.
Proof. intros (ws & _ & Hm). by exists ws. Qed.

Lemma generator_length m : generator m → length (words m) = 2048%nat.
Proof. intros (ws & Hm). apply New_Some in Hm as (? & -> & _). done. Qed.

Lemma generator_index m w v :
  generator m → dict m !! w = Some v → 0 ≤ v < 2048 ∧ words m !! Z.to_nat v = Some w.
Proof.
  intros (ws & Hm) Hv. apply New_Some in Hm as (Hl & Hw & Hd).
  rewrite Hd in Hv. apply build_dict_index in Hv as [(j & Hj & ->)|Hv]; [|done].
  pose proof (lookup_lt_Some _ _ _ Hj). rewrite Hw.
  split; [lia|]. by rewrite Z.add_0_l, Nat2Z.id.
Qed.

Lemma valid_input_passes identifier password passcode size :
  valid_input identifier password passcode size →
  passes_validation identifier password passcode size.
Proof.
  intros (Hi & Hp & Hc & Hd & Hs). repeat split; try done.
  apply Atoi_digits; [done|lia].
Qed.

Lemma index_facts v :
  0 ≤ v < 2048 →
  is_bits (sprintf_0b 11 v) = true ∧ String.length (sprintf_0b 11 v) = 11%nat.
Proof.
  intros Hv. assert (index_ok11 v = true) as Hok.
  { assert (forallb index_ok11 (seqZ 0 2048) = true) as Hall by (by vm_compute).
    rewrite forallb_forall in Hall. apply Hall, list_elem_of_In, elem_of_seqZ. lia. }
  unfold index_ok11 in Hok. apply andb_true_iff in Hok as [? Hl].
  by apply bool_decide_eq_true in Hl.
Qed.

(** ** Decoding a word sequence *)

Lemma validate_Some m ws e :
  validateWordsPrecense m ws = Some e →
  ∃ w, e = UnrecognizedWord w ∧ w ∈ ws ∧ dict m !! w = None.
Proof.
  induction ws as [|w0 ws IH]; [done|]. simpl.
  destruct (dict m !! w0) eqn:Hw0.
  - intros (w & -> & Hw & Hd)%IH. exists w. split; [done|]. split; [by right|done].
  - intros [= <-]. exists w0. split; [done|]. split; [by left|done].
Qed.

Lemma validate_None m ws :
  validateWordsPrecense m ws = None ↔ ∀ w, w ∈ ws → is_Some (dict m !! w).
Proof.
  induction ws as [|w0 ws IH]; simpl.
  - split; [|done]. intros _ w Hw. by apply elem_of_nil in Hw.
  - destruct (dict m !! w0) eqn:Hw0.
    + rewrite IH. split.
      * intros Hall w [->|Hw]%elem_of_cons; [by rewrite Hw0|by apply Hall].
      * intros Hall w Hw. apply Hall. by right.
    + split; [done|]. intros Hall.
      destruct (Hall w0) as [v Hv]; [by left|]. congruence.
Qed.

Lemma index_bits_fold m ws acc :
  fold_left (λ bins w,
      bins +:+ intToBin (map_get (dict m) w) _bitChunkSizeBip39WordIndex) ws acc
  = acc +:+ index_bits m ws.
Proof.
  revert acc. induction ws as [|w ws IH]; intros acc; simpl.
  - by rewrite str_app_nil_r.
  - rewrite IH. by rewrite str_app_assoc.
Qed.

Lemma index_bits_facts m ws :
  generator m → (∀ w, w ∈ ws → is_Some (dict m !! w)) →
  is_bits (index_bits m ws) = true ∧
  String.length (index_bits m ws) = (11 * length ws)%nat.
Proof.
  intros Hm. induction ws as [|w ws IH]; intros Hall; [done|].
  destruct IH as [IHb IHl]. { intros w' Hw'. apply Hall. by right. }
  destruct (Hall w) as [v Hv]; [by left|].
  destruct (generator_index m w v Hm Hv) as [Hr _].
  destruct (index_facts v Hr) as [Hb Hl].
  cbn [index_bits foldr]. fold (index_bits m ws).
  unfold map_get. rewrite Hv. change (default 0 (Some v)) with v.
  split.
  - by rewrite is_bits_app, Hb, IHb.
  - rewrite str_length_app, Hl, IHl. simpl. lia.
Qed.

Lemma group8_facts g :
  is_bits g = true → String.length g = 8%nat → byte_bits_msb (bits_value g) = g.
Proof.
  intros Hg Hl. assert (group8_ok g = true) as Hok.
  { eapply bits_forall; [|done|done]. by vm_compute. }
  by apply bool_decide_eq_true in Hok.
Qed.

(** Packing a bit string of [8 n] bits gives [n] bytes whose MSB-first
    expansion is the bit string. *)
Lemma bits_msb_packed n : ∀ s,
  is_bits s = true → String.length s = (8 * n)%nat →
  bits_msb (packed s) = s ∧ length (packed s) = n.
Proof.
  induction n as [|n IH]; intros s Hs Hl.
  - destruct s; [done|]. simpl in Hl. lia.
  - rewrite packed_step by lia.
    destruct (IH (str_drop 8 s)) as [IHb IHl];
      [by apply is_bits_drop|rewrite str_length_drop; lia|].
    cbn [bits_msb foldr length]. fold (bits_msb (packed (str_drop 8 s))).
    rewrite IHb, IHl. split; [|done].
    rewrite pack_byte_full by (rewrite str_length_take; lia).
    rewrite group8_facts; [apply str_take_drop|by apply is_bits_take|].
    rewrite str_length_take. lia.
Qed.

Lemma word_at_lookup m c :
  generator m → is_bits c = true → String.length c = 11%nat →
  words m !! Z.to_nat (bits_value c) = Some (word_at m (bits_value c)).
Proof.
  intros Hm Hc Hl. destruct (word_index_facts c Hc Hl) as (_ & Hr & Hv).
  rewrite <- Hv.
  destruct (lookup_lt_is_Some_2 (words m) (Z.to_nat (binToInt c))) as [w Hw].
  { rewrite generator_length by done. lia. }
  unfold word_at. by rewrite Hw.
Qed.

(** * The claims of the specification *)

Lemma group_length size s j :
  String.length (group size s j)
  = (size `min` (String.length s - size * j))%nat.
Proof. unfold group. by rewrite str_length_take, str_length_drop. Qed.

(** C8: for every bit string, [binToBytes] returns [ceil(n/8)] bytes. Byte
    [j] is the [j]-th group of 8 bits read MSB-first; a last group of
    [k < 8] bits is shifted left by [8 - k], so that it takes the most
    significant positions and the low bits are zero. For [n] a multiple of 8
    the result has [n/8] bytes. *)
Theorem binToBytes_pack (s : string) :
  is_bits s = true →
  ∃ out, binToBytes s = Returns out ∧
    length out = ceil8 (String.length s) ∧
    (∀ j, (j < ceil8 (String.length s))%nat →
       out !! j = Some (Z.shiftl (bits_value (group 8 s j)) (8 - len (group 8 s j))) ∧
       is_byte (Z.shiftl (bits_value (group 8 s j)) (8 - len (group 8 s j)))) ∧
    (∀ j, (8 * S j ≤ String.length s)%nat →
       len (group 8 s j) = 8 ∧ out !! j = Some (bits_value (group 8 s j))) ∧
    (∀ j, (8 * j < String.length s < 8 * S j)%nat →
       len (group 8 s j) = Z.of_nat (String.length s) - 8 * Z.of_nat j ∧
       Z.land (Z.shiftl (bits_value (group 8 s j)) (8 - len (group 8 s j)))
              (Z.ones (8 - len (group 8 s j))) = 0) ∧
    (∀ n, String.length s = (8 * n)%nat → length out = n).
Proof.
  intros Hs. exists (packed s). split; [by apply binToBytes_packed|].
  assert (length (packed s) = ceil8 (String.length s)) as Hlen.
  { unfold packed. by rewrite length_fmap, length_seq. }
  assert (∀ j, (j < ceil8 (String.length s))%nat →
            packed s !! j = Some (pack_byte (group 8 s j))) as Hlook.
  { intros j Hj. unfold packed. rewrite list_lookup_fmap, lookup_seq_lt by done. done. }
  split; [done|]. split; [|split; [|split]].
  - intros j Hj. split; [by apply Hlook|].
    assert (8 * j < String.length s)%nat as Hjs.
    { unfold ceil8 in Hj. div8 (String.length s + 7)%nat. lia. }
    pose proof (group_length 8 s j) as Hg.
    destruct (group_facts (group 8 s j)) as (Hv & _ & Hp);
      [by apply is_bits_group|lia|].
    fold (pack_byte (group 8 s j)). rewrite <- Hp. unfold is_byte, wrap8.
    apply Z.mod_pos_bound. lia.
  - intros j Hj. pose proof (group_length 8 s j) as Hg.
    assert (len (group 8 s j) = 8) as Hl by (unfold len; lia).
    split; [done|]. rewrite Hlook.
    + unfold pack_byte. by rewrite Hl, Z.shiftl_0_r.
    + unfold ceil8. div8 (String.length s + 7)%nat. lia.
  - intros j Hj. pose proof (group_length 8 s j) as Hg.
    split; [unfold len; lia|].
    apply Z.bits_inj'. intros i Hi.
    rewrite Z.land_spec, Z.bits_0, Z.shiftl_spec by done.
    destruct (decide (i < 8 - len (group 8 s j))) as [Hlt|Hge].
    + rewrite Z.testbit_neg_r by lia. done.
    + rewrite Z.ones_spec_high by (unfold len in *; lia). apply andb_false_r.
  - intros n Hn. rewrite Hlen, Hn. apply ceil8_mul.
Qed.

Lemma binToBytes_pack_witness :
  is_bits "111111111" = true ∧
  ∃ out, binToBytes "111111111" = Returns out ∧ length out = 2%nat.
Proof.
  split; [reflexivity|].
  destruct (binToBytes_pack "111111111" eq_refl) as (out & Hout & Hlen & _).
  exists out. split; [exact Hout|exact Hlen].
Defined.

Section Claims.
Context `{Primitives}.

(** C4: for every entropy and every size from 4 to 8, [checksum] returns
    the first [sizeBits] bits of the 8-bit MSB-first rendering of the first
    byte of the SHA-256 digest of the entropy; its length is [sizeBits]. *)
Theorem checksum_first_bits (entropy : list Z) (sizeBits : Z) :
  4 ≤ sizeBits ≤ 8 →
  ∃ b digest, sha256_Sum256 entropy = b :: digest ∧
    checksum entropy sizeBits
      = Returns (str_take (Z.to_nat sizeBits) (byte_bits_msb b)) ∧
    len (str_take (Z.to_nat sizeBits) (byte_bits_msb b)) = sizeBits.
Proof.
  intros Hs. pose proof (sha256_Sum256_length entropy) as Hl.
  pose proof (checksum_ok entropy (Z.to_nat sizeBits) ltac:(lia)) as Hc.
  pose proof (checksum_bits_length entropy (Z.to_nat sizeBits) ltac:(lia)) as Hcl.
  unfold checksum_bits, digest_head in *.
  destruct (sha256_Sum256 entropy) as [|b digest] eqn:Hd; [done|].
  exists b, digest. rewrite Z2Nat.id in Hc by lia. simpl in Hc, Hcl.
  split; [done|]. split; [done|]. unfold len. rewrite Hcl. lia.
Qed.

(** C9: [GenerateSeed] and [GenerateSeed32] return no error and the key
    PBKDF2-HMAC-SHA512 derives from the sentence with the salt ["mnemonic"]
    followed by the passphrase: 64 bytes after 2048 iterations, 32 bytes
    after 4096. The passphrase may be empty. *)
Theorem GenerateSeed_pbkdf2 (sentence passphrase : string) :
  GenerateSeed sentence passphrase
    = (pbkdf2_Key (bytes_of_string sentence)
         (bytes_of_string ("mnemonic" +:+ passphrase)) 2048 64 sha512_New, None) ∧
  length (fst (GenerateSeed sentence passphrase)) = 64%nat ∧
  GenerateSeed32 sentence passphrase
    = (pbkdf2_Key (bytes_of_string sentence)
         (bytes_of_string ("mnemonic" +:+ passphrase)) 4096 32 sha512_New, None) ∧
  length (fst (GenerateSeed32 sentence passphrase)) = 32%nat ∧
  GenerateSeed sentence ""
    = (pbkdf2_Key (bytes_of_string sentence) (bytes_of_string "mnemonic")
         2048 64 sha512_New, None).
Proof.
  unfold GenerateSeed, GenerateSeed32. simpl.
  rewrite !pbkdf2_Key_length by done. done.
Qed.

Lemma passes_shape identifier password passcode size :
  passes_validation identifier password passcode size →
  ∃ strength cs k, shape size strength cs k.
Proof. intros (_ & _ & _ & _ & Hs). by apply shape_supported. Qed.

Lemma Generate_passes m identifier password passcode size strength cs k :
  generator m → passes_validation identifier password passcode size →
  shape size strength cs k →
  Generate m identifier password passcode size
  = Returns (sentence m (entropy_of identifier password passcode size) cs (S k), None).
Proof.
  intros Hm (Hi & Hp & Hc & Ha & _) Hs.
  apply (Generate_valid m _ _ _ _ strength cs k); try done.
  by apply generator_length.
Qed.

(** The checks of [Generate] in the order the code makes them, each with
    the predicate the code tests: the fourth is [strconv.Atoi] returning no
    error. *)
Lemma Generate_checks (m : mnemonicer)
    (identifier password passcode : string) (size : Z) :
  generator m →
  (len identifier < 2 →
     Generate m identifier password passcode size
     = Returns ([], Some IdentifierTooShort)) ∧
  (2 ≤ len identifier → len password < 12 →
     Generate m identifier password passcode size
     = Returns ([], Some PasswordTooShort)) ∧
  (2 ≤ len identifier → 12 ≤ len password → len passcode ≠ 6 →
     Generate m identifier password passcode size
     = Returns ([], Some PasscodeWrongLength)) ∧
  (2 ≤ len identifier → 12 ≤ len password → len passcode = 6 →
   snd (Atoi passcode) ≠ None →
     Generate m identifier password passcode size
     = Returns ([], Some (PasscodeNotNumeric passcode))) ∧
  (2 ≤ len identifier → 12 ≤ len password → len passcode = 6 →
   snd (Atoi passcode) = None → ¬ supported_size size →
     Generate m identifier password passcode size
     = Returns ([], Some (UnsupportedStrength 0))) ∧
  (2 ≤ len identifier → 12 ≤ len password → len passcode = 6 →
   snd (Atoi passcode) = None → supported_size size →
     ∃ ws, Generate m identifier password passcode size = Returns (ws, None)) ∧
  (len identifier = 1 →
     Generate m identifier password passcode size
     = Returns ([], Some IdentifierTooShort)) ∧
  (len identifier = 2 →
     Generate m identifier password passcode size
     ≠ Returns ([], Some IdentifierTooShort)) ∧
  (2 ≤ len identifier → len password = 11 →
     Generate m identifier password passcode size
     = Returns ([], Some PasswordTooShort)) ∧
  (2 ≤ len identifier → len password = 12 →
     Generate m identifier password passcode size
     ≠ Returns ([], Some PasswordTooShort)).
Proof.
  intros Hm.
  assert (len identifier < 2 →
     Generate m identifier password passcode size
     = Returns ([], Some IdentifierTooShort)) as H1.
  { intros Hi. unfold Generate, _inputIdentifierMinLength.
    by rewrite bool_decide_eq_true_2. }
  assert (2 ≤ len identifier → len password < 12 →
     Generate m identifier password passcode size
     = Returns ([], Some PasswordTooShort)) as H2.
  { intros Hi Hp. unfold Generate, _inputIdentifierMinLength, _inputPasswordMinLength.
    rewrite bool_decide_eq_false_2 by lia. by rewrite bool_decide_eq_true_2. }
  assert (2 ≤ len identifier → 12 ≤ len password → len passcode ≠ 6 →
     Generate m identifier password passcode size
     = Returns ([], Some PasscodeWrongLength)) as H3.
  { intros Hi Hp Hc. unfold Generate, _inputIdentifierMinLength,
      _inputPasswordMinLength, _inputPasscodeLength.
    rewrite !bool_decide_eq_false_2 by lia. by rewrite bool_decide_eq_true_2. }
  assert (2 ≤ len identifier → 12 ≤ len password → len passcode = 6 →
     snd (Atoi passcode) ≠ None →
     Generate m identifier password passcode size
     = Returns ([], Some (PasscodeNotNumeric passcode))) as H4.
  { intros Hi Hp Hc Ha. unfold Generate, _inputIdentifierMinLength,
      _inputPasswordMinLength, _inputPasscodeLength.
    rewrite !bool_decide_eq_false_2 by lia.
    by destruct (snd (Atoi passcode)). }
  assert (2 ≤ len identifier → 12 ≤ len password → len passcode = 6 →
     snd (Atoi passcode) = None → ¬ supported_size size →
     Generate m identifier password passcode size
     = Returns ([], Some (UnsupportedStrength 0))) as H5.
  { intros Hi Hp Hc Ha Hs. unfold Generate, _inputIdentifierMinLength,
      _inputPasswordMinLength, _inputPasscodeLength.
    rewrite !bool_decide_eq_false_2 by lia.
    by rewrite Ha, strength_unsupported, validateStrength_0. }
  assert (2 ≤ len identifier → 12 ≤ len password → len passcode = 6 →
     snd (Atoi passcode) = None → supported_size size →
     ∃ ws, Generate m identifier password passcode size = Returns (ws, None)) as H6.
  { intros Hi Hp Hc Ha Hs. destruct (shape_supported size Hs) as (strength & cs & k & Hsh).
    eexists. by apply (Generate_passes m _ _ _ _ strength cs k). }
  assert (∀ e, e ≠ PasscodeWrongLength → e ≠ UnsupportedStrength 0 →
            (∀ p, e ≠ PasscodeNotNumeric p) →
            2 ≤ len identifier → 12 ≤ len password →
            Generate m identifier password passcode size ≠ Returns ([], Some e)) as Hne.
  { intros e He1 He2 He3 Hi Hp.
    destruct (decide (len passcode = 6)) as [Hc|Hc]; [|rewrite H3 by done; congruence].
    destruct (snd (Atoi passcode)) as [ae|] eqn:Ha.
    { rewrite H4 by (done || congruence). intros [= <-]. by eapply He3. }
    destruct (decide (supported_size size)) as [Hs|Hs].
    - destruct (H6 Hi Hp Hc eq_refl Hs) as (ws & ->). congruence.
    - rewrite H5 by done. congruence. }
  repeat split; try done.
  - intros Hi. apply H1. lia.
  - intros Hi. destruct (decide (len password < 12)) as [Hp|Hp].
    + rewrite H2 by lia. congruence.
    + apply Hne; try done; lia.
  - intros Hi Hp. apply H2; lia.
  - intros Hi Hp. apply Hne; try done; lia.
Qed.

(** C7 (what the code does): [Generate] checks the identifier length, the
    password length and the passcode length in this order, and a passcode of
    six decimal digits then reaches the check of the word count, which fails
    with [UnsupportedStrength 0] outside 12, 15, 18, 21, 24. An identifier
    of length 1 fails and one of length 2 passes; a password of length 11
    fails and one of length 12 passes. The fourth check is [strconv.Atoi],
    not a test for six decimal digits: a passcode of six characters with a
    character that is not a decimal digit fails with [PasscodeNotNumeric]
    unless it is a sign followed by five digits; such a passcode passes the
    fourth check, so with an unsupported word count [Generate] returns
    [UnsupportedStrength 0], the error of the fifth check, although the
    passcode is not numeric. *)
Theorem Generate_order_signed_passcode (m : mnemonicer)
    (identifier password passcode : string) (size : Z) :
  generator m →
  (len identifier < 2 →
     Generate m identifier password passcode size
     = Returns ([], Some IdentifierTooShort)) ∧
  (2 ≤ len identifier → len password < 12 →
     Generate m identifier password passcode size
     = Returns ([], Some PasswordTooShort)) ∧
  (2 ≤ len identifier → 12 ≤ len password → len passcode ≠ 6 →
     Generate m identifier password passcode size
     = Returns ([], Some PasscodeWrongLength)) ∧
  (2 ≤ len identifier → 12 ≤ len password → len passcode = 6 →
   all_digits passcode = true → ¬ supported_size size →
     Generate m identifier password passcode size
     = Returns ([], Some (UnsupportedStrength 0))) ∧
  (2 ≤ len identifier → 12 ≤ len password → len passcode = 6 →
   all_digits passcode = true → supported_size size →
     ∃ ws, Generate m identifier password passcode size = Returns (ws, None)) ∧
  (2 ≤ len identifier → 12 ≤ len password → len passcode = 6 →
   all_digits passcode = false →
   (∀ c rest, passcode = String c rest → c = "+"%char ∨ c = "-"%char →
      all_digits rest = false) →
     Generate m identifier password passcode size
     = Returns ([], Some (PasscodeNotNumeric passcode))) ∧
  (2 ≤ len identifier → 12 ≤ len password → len passcode = 6 →
   ∀ c rest, passcode = String c rest → c = "+"%char ∨ c = "-"%char →
     all_digits rest = true →
     all_digits passcode = false ∧
     (¬ supported_size size →
        Generate m identifier password passcode size
        = Returns ([], Some (UnsupportedStrength 0))) ∧
     (supported_size size →
        ∃ ws, Generate m identifier password passcode size = Returns (ws, None))) ∧
  (len identifier = 1 →
     Generate m identifier password passcode size
     = Returns ([], Some IdentifierTooShort)) ∧
  (len identifier = 2 →
     Generate m identifier password passcode size
     ≠ Returns ([], Some IdentifierTooShort)) ∧
  (2 ≤ len identifier → len password = 11 →
     Generate m identifier password passcode size
     = Returns ([], Some PasswordTooShort)) ∧
  (2 ≤ len identifier → len password = 12 →
     Generate m identifier password passcode size
     ≠ Returns ([], Some PasswordTooShort)).
Proof.
  intros Hm.
  destruct (Generate_checks m identifier password passcode size Hm)
    as (H1 & H2 & H3 & H4 & H5 & H6 & B1 & B2 & B3 & B4).
  split; [done|]. split; [done|]. split; [done|].
  split; [|split; [|split; [|split]]].
  - intros Hi Hp Hc Hd Hs. apply H5; try done. apply Atoi_six; [done|by left].
  - intros Hi Hp Hc Hd Hs. apply H6; try done. apply Atoi_six; [done|by left].
  - intros Hi Hp Hc Hd Hsign. apply H4; try done. intros Ha.
    apply Atoi_six in Ha; [|done].
    destruct Ha as [Ha|(c & rest & -> & Hcs & Hr)]; [congruence|].
    rewrite (Hsign c rest eq_refl Hcs) in Hr. done.
  - intros Hi Hp Hc c rest -> Hcs Hr.
    assert (snd (Atoi (String c rest)) = None) as Ha.
    { apply Atoi_six; [done|]. right. by exists c, rest. }
    split; [|split].
    + change (all_digits (String c rest)) with (is_digit c && all_digits rest).
      by destruct Hcs as [->| ->].
    + intros Hs. by apply H5.
    + intros Hs. by apply H6.
  - done.
Qed.

(** C6 (what the code does): a passcode of six characters whose first is a
    sign passes the numeric check, [strconv.Atoi] accepting a leading sign,
    and [Generate] returns a mnemonic for it. Among the passcodes of six
    characters the check accepts six decimal digits (leading zeros allowed)
    and a sign followed by five digits, and nothing else. *)
Theorem Generate_signed_passcode (m : mnemonicer) :
  generator m →
  is_digit "+" = false ∧ len "+12345" = 6 ∧
  (∃ ws, Generate m "ab" "abcdefghijkl" "+12345" 12 = Returns (ws, None)) ∧
  (∀ passcode, len passcode = 6 → all_digits passcode = true →
     snd (Atoi passcode) = None) ∧
  (∀ passcode, len passcode = 6 →
     snd (Atoi passcode) = None ↔
       all_digits passcode = true ∨
       ∃ c rest, passcode = String c rest ∧ (c = "+"%char ∨ c = "-"%char) ∧
                 all_digits rest = true).
Proof.
  intros Hm. split; [done|]. split; [done|]. split; [|split].
  - eexists. apply (Generate_passes m _ _ _ _ 128 4%nat 11%nat); [done| |].
    + repeat split; try done. unfold supported_size. lia.
    + unfold shape. tauto.
  - intros passcode Hl Hd. apply Atoi_digits; [done|lia].
  - apply Atoi_six.
Qed.

(** C10: for every input that passes validation, the parameters
    [Generate] hands to [scrypt.Key] (N = 2^18, r = 8, p = 1, and a key of
    [strength/8] bytes for a strength among 128, 160, 192, 224, 256) are
    accepted, so the error it drops is [nil]; both derived keys have
    [strength/8] bytes, every read of the exclusive-or loop is in bounds and
    the loop returns. *)
Theorem scrypt_error_dropped_is_nil (identifier password passcode : string)
    (size : Z) :
  passes_validation identifier password passcode size →
  let strength := map_get _sentenceStrengths size in
  let entropySize := strength `quot` _bitChunkSizeOneByte in
  let input := bytes_of_string
    (identifier +:+ ":" +:+ password +:+ "|" +:+ passcode +:+ "=" +:+ sprintf_d size) in
  let salt := bytes_of_string
    (_saltPrefixPassword +:+ password +:+ _saltPrefixPasscode +:+ passcode) in
  let dkHead := pbkdf2_Key input salt (Z.shiftl 1 18) entropySize sha512_New in
  let dkTail := scrypt_Key input salt (Z.shiftl 1 18) 8 1 entropySize in
  (strength = 128 ∨ strength = 160 ∨ strength = 192 ∨ strength = 224 ∨ strength = 256) ∧
  Z.shiftl 1 18 = 2 ^ 18 ∧
  snd dkTail = None ∧
  Z.of_nat (length (fst dkTail)) = entropySize ∧
  Z.of_nat (length dkHead) = entropySize ∧
  (∀ k, 0 ≤ k < entropySize →
     (∃ a, index dkHead k = Returns a) ∧ (∃ b, index (fst dkTail) k = Returns b)) ∧
  ∃ entropy,
    deriveEntropy identifier password passcode size strength = Returns entropy ∧
    Z.of_nat (length entropy) = entropySize.
Proof.
  intros Hv. destruct (passes_shape _ _ _ _ Hv) as (strength & cs & k & Hs).
  pose proof (shape_facts _ _ _ _ Hs)
    as (_ & Hst & _ & _ & _ & Hq & Hpos & _).
  cbv zeta. rewrite Hst, Hq, scrypt_Key_accepts. cbn [fst snd].
  assert (length (pbkdf2_Key
            (bytes_of_string (identifier +:+ ":" +:+ password +:+ "|" +:+ passcode
                              +:+ "=" +:+ sprintf_d size))
            (bytes_of_string (_saltPrefixPassword +:+ password
                              +:+ _saltPrefixPasscode +:+ passcode))
            (Z.shiftl 1 18) (strength `div` 8) sha512_New)
          = Z.to_nat (strength `div` 8)) as HA by (by apply pbkdf2_Key_length).
  assert (length (scrypt_derive
            (bytes_of_string (identifier +:+ ":" +:+ password +:+ "|" +:+ passcode
                              +:+ "=" +:+ sprintf_d size))
            (bytes_of_string (_saltPrefixPassword +:+ password
                              +:+ _saltPrefixPasscode +:+ passcode))
            262144 8 1 (strength `div` 8))
          = Z.to_nat (strength `div` 8)) as HB by (by apply scrypt_derive_length).
  split. { unfold shape in Hs. destruct_or!; destruct_and!; subst; tauto. }
  split; [done|]. split; [done|].
  split; [rewrite HB; lia|]. split; [rewrite HA; lia|]. split.
  - intros j Hj. split.
    + destruct (lookup_lt_is_Some_2 _ (Z.to_nat j) ltac:(rewrite HA; lia)) as [a Ha].
      exists a. rewrite <- (Z2Nat.id j) by lia. by apply index_ok.
    + destruct (lookup_lt_is_Some_2 _ (Z.to_nat j) ltac:(rewrite HB; lia)) as [b Hb].
      exists b. rewrite <- (Z2Nat.id j) by lia. by apply index_ok.
  - exists (entropy_of identifier password passcode size). split.
    + by apply (deriveEntropy_ok _ _ _ _ _ cs k).
    + rewrite (entropy_of_length _ _ _ _ _ _ _ Hs). lia.
Qed.

(** C2: for every valid input the entropy of [Generate] is derived from
    the message ["{identifier}:{password}|{passcode}={wordCount}"] and the
    salt ["pwd" + password + "code" + passcode]: stream A is PBKDF2 with
    HMAC-SHA512, 2^18 = 262144 iterations and [strength/8] bytes, stream B is
    scrypt with N = 2^18, r = 8, p = 1 and the same length, and byte [i] of
    the entropy is [A[i] xor B[i]]. *)
Theorem Generate_entropy_streams (m : mnemonicer)
    (identifier password passcode : string) (size : Z) :
  generator m → valid_input identifier password passcode size →
  let message :=
    identifier +:+ ":" +:+ password +:+ "|" +:+ passcode +:+ "=" +:+ sprintf_d size in
  let salt := "pwd" +:+ password +:+ "code" +:+ passcode in
  let n := strength_of size `div` 8 in
  let A := pbkdf2_Key (bytes_of_string message) (bytes_of_string salt)
             (2 ^ 18) n sha512_New in
  let B := scrypt_derive (bytes_of_string message) (bytes_of_string salt)
             (2 ^ 18) 8 1 n in
  2 ^ 18 = 262144 ∧
  scrypt_Key (bytes_of_string message) (bytes_of_string salt) (2 ^ 18) 8 1 n
    = (B, None) ∧
  length A = Z.to_nat n ∧ length B = Z.to_nat n ∧
  ∃ entropy,
    deriveEntropy identifier password passcode size
      (map_get _sentenceStrengths size) = Returns entropy ∧
    (∃ ws, encodeWords m entropy (map_get _sentenceStrengths size) = Returns ws ∧
           Generate m identifier password passcode size = Returns (ws, None)) ∧
    length entropy = Z.to_nat n ∧
    (∀ k, (k < Z.to_nat n)%nat →
       ∃ a b, A !! k = Some a ∧ B !! k = Some b ∧ entropy !! k = Some (Z.lxor a b)).
Proof.
  intros Hm Hv. apply valid_input_passes in Hv as Hp.
  destruct (passes_shape _ _ _ _ Hp) as (strength & cs & k & Hs).
  pose proof (shape_facts _ _ _ _ Hs)
    as (_ & Hst & Hso & _ & _ & Hq & Hpos & Hl8 & Hq32 & Hcs & Hk).
  pose proof (stream_A_length identifier password passcode _ _ _ _ Hs) as HA.
  pose proof (stream_B_length identifier password passcode _ _ _ _ Hs) as HB.
  pose proof (entropy_of_length identifier password passcode _ _ _ _ Hs) as HE.
  pose proof (deriveEntropy_ok identifier password passcode _ _ _ _ Hs) as HD.
  pose proof (Generate_passes m _ _ _ _ _ _ _ Hm Hp Hs) as HG.
  unfold entropy_of, stream_A, stream_B, canonical_message, kdf_salt in *.
  cbv zeta. change (2 ^ 18) with 262144.
  change 262144 with (Z.shiftl 1 18) in HA, HB, HE, HD, HG |- * at 2.
  rewrite scrypt_Key_accepts in *. cbn [fst] in *.
  change (Z.shiftl 1 18) with 262144 in *.
  rewrite Hst, Hso in *.
  split; [done|]. split; [done|]. split; [done|]. split; [done|].
  eexists. split; [exact HD|]. split; [|split; [exact HE|]].
  - eexists. split; [|exact HG].
    apply (encodeWords_sentence m _ strength cs k); try done.
    + by apply generator_length.
    + apply Forall_zip_with_lxor; [apply pbkdf2_Key_bytes|apply scrypt_derive_bytes].
    + rewrite HE. done.
  - intros j Hj.
    destruct (lookup_lt_is_Some_2 _ j ltac:(rewrite HA; exact Hj)) as [a Ha].
    destruct (lookup_lt_is_Some_2 _ j ltac:(rewrite HB; exact Hj)) as [b Hb].
    exists a, b. split; [done|]. split; [done|].
    rewrite lookup_zip_with, Ha, Hb. done.
Qed.

(** C3: for every valid generation, with [checksumSize = strength/32],
    [mnemonicLength = (strength + checksumSize)/11] and
    [prefixSize = 11 - checksumSize], the entropy is expanded to bits
    MSB-first; the first [strength - prefixSize] bits split into
    [mnemonicLength - 1] groups of 11 bits, each read as a base-2 unsigned
    integer that indexes the dictionary; the index of the last word is the
    value of the remaining [prefixSize] bits followed by the [checksumSize]
    checksum bits; [Generate] returns [mnemonicLength] words. *)
Theorem Generate_word_indices (m : mnemonicer)
    (identifier password passcode : string) (size : Z) :
  generator m → valid_input identifier password passcode size →
  let strength := strength_of size in
  let checksumSize := strength `div` 32 in
  let mnemonicLength := (strength + checksumSize) `div` 11 in
  let prefixSize := 11 - checksumSize in
  let entropy := entropy_of identifier password passcode size in
  let bits := bits_msb entropy in
  let head := str_take (Z.to_nat (strength - prefixSize)) bits in
  let tail := str_drop (Z.to_nat (strength - prefixSize)) bits in
  let cs := checksum_bits entropy (Z.to_nat checksumSize) in
  ∃ ws,
    Generate m identifier password passcode size = Returns (ws, None) ∧
    Z.of_nat (length ws) = mnemonicLength ∧ mnemonicLength = size ∧
    len bits = strength ∧ len head = 11 * (mnemonicLength - 1) ∧
    len tail = prefixSize ∧ len cs = checksumSize ∧
    (∀ j, Z.of_nat j < mnemonicLength - 1 →
       len (group 11 head j) = 11 ∧
       is_Some (ws !! j) ∧
       ws !! j = words m !! Z.to_nat (bits_value (group 11 head j))) ∧
    is_Some (ws !! Z.to_nat (mnemonicLength - 1)) ∧
    ws !! Z.to_nat (mnemonicLength - 1)
      = words m !! Z.to_nat (bits_value (tail +:+ cs)).
Proof.
  intros Hm Hv. apply valid_input_passes in Hv as Hp.
  destruct (passes_shape _ _ _ _ Hp) as (strength & cs & k & Hs).
  pose proof (shape_facts _ _ _ _ Hs)
    as (_ & _ & Hso & _ & Hsize & _ & Hpos & Hl8 & Hq32 & Hcs & Hk).
  pose proof (entropy_of_length identifier password passcode _ _ _ _ Hs) as HE.
  pose proof (entropy_of_bytes identifier password passcode size) as HB.
  pose proof (Generate_passes m _ _ _ _ _ _ _ Hm Hp Hs) as HG.
  cbv zeta. rewrite Hso.
  set (entropy := entropy_of identifier password passcode size) in *.
  assert (strength `div` 32 = Z.of_nat cs) as Hd32
    by (rewrite <- Hq32, Z.quot_div_nonneg; lia).
  assert ((strength + Z.of_nat cs) `div` 11 = Z.of_nat (S k)) as Hd11
    by (rewrite Hk, Z.mul_comm, Z.div_mul; lia).
  rewrite Hd32, Hd11, Nat2Z.id.
  replace (strength - (11 - Z.of_nat cs)) with (Z.of_nat (11 * k)) by lia.
  replace (Z.of_nat (S k) - 1) with (Z.of_nat k) by lia.
  rewrite !Nat2Z.id.
  destruct (sentence_bits_facts entropy strength cs k) as (Hsb & Hbits & Hlen & Hlb);
    [done|lia|done|done|].
  pose proof (bytesToBin_bits_msb entropy HB) as Hmsb.
  pose proof (bytesToBin_is_bits entropy HB) as Hbb.
  pose proof (checksum_bits_length entropy cs (proj2 Hcs)) as Hcl.
  pose proof (is_bits_checksum_bits entropy cs) as Hcb.
  rewrite Hmsb in *.
  set (bits := bits_msb entropy) in *.
  assert (String.length bits = Z.to_nat strength) as Hbl by (unfold len in Hlb; lia).
  exists (sentence m entropy cs (S k)). split; [exact HG|].
  assert (∀ j, (j < S k)%nat →
            sentence m entropy cs (S k) !! j
            = Some (word_at m (bits_value (group 11 (sentence_bits entropy cs) j))))
    as Hlook.
  { intros j Hj. unfold sentence. by rewrite list_lookup_fmap, lookup_seq_lt. }
  split. { unfold sentence. by rewrite length_fmap, length_seq. }
  split; [lia|]. split; [done|].
  split. { unfold len. rewrite str_length_take. lia. }
  split. { unfold len. rewrite str_length_drop. lia. }
  split. { unfold len. lia. }
  split; [|split].
  - intros j Hj. assert (j < k)%nat as Hjk by lia.
    assert (group 11 (sentence_bits entropy cs) j
            = group 11 (str_take (11 * k) bits) j) as Hg.
    { rewrite Hsb, group_app_l by lia. by rewrite group_take by lia. }
    destruct (group_decomp 11 (str_take (11 * k) bits) j) as (_ & _ & Hgl).
    { rewrite str_length_take. lia. }
    split; [unfold len; lia|].
    rewrite Hlook, Hg by lia. split; [done|].
    symmetry. apply word_at_lookup; [done|by apply is_bits_group, is_bits_take|done].
  - rewrite Hlook by lia. done.
  - rewrite Hlook by lia.
    assert (group 11 (sentence_bits entropy cs) k = str_drop (11 * k) bits +:+
              checksum_bits entropy cs) as Hg.
    { eapply (group_unique 11 _ (str_take (11 * k) bits) _ "").
      - rewrite str_app_nil_r, Hsb, <- str_app_assoc. by rewrite str_take_drop.
      - rewrite str_length_take. lia.
      - rewrite str_length_app, str_length_drop. lia. }
    rewrite Hg. symmetry. apply word_at_lookup; [done| |].
    + by rewrite is_bits_app, is_bits_drop, Hcb.
    + rewrite str_length_app, str_length_drop. lia.
Qed.

(** C1: for every identifier, password, passcode and word count that
    satisfy the preconditions of [Generate], over a dictionary of 2048
    distinct words, [IsValid] returns true and no error on the words
    [Generate] returns, and [CalculateEntropy] returns entropy bytes and no
    error on them. *)
Theorem IsValid_Generate (m : mnemonicer)
    (identifier password passcode : string) (size : Z) :
  dictionary m → valid_input identifier password passcode size →
  ∃ ws entropy,
    Generate m identifier password passcode size = Returns (ws, None) ∧
    IsValid m ws = Returns (true, None) ∧
    CalculateEntropy m ws = Returns (entropy, None) ∧
    entropy = entropy_of identifier password passcode size.
Proof.
  intros Hm Hv. apply valid_input_passes in Hv as Hp.
  destruct (passes_shape _ _ _ _ Hp) as (strength & cs & k & Hs).
  pose proof (shape_facts _ _ _ _ Hs)
    as (_ & Hst & _ & Hval & Hsize & _ & Hpos & Hl8 & Hq32 & Hcs & Hk).
  pose proof (entropy_of_length identifier password passcode _ _ _ _ Hs) as HE.
  pose proof (entropy_of_bytes identifier password passcode size) as HB.
  pose proof (Generate_passes m _ _ _ _ _ _ _ (dictionary_generator _ Hm) Hp Hs) as HG.
  destruct (decode_sentence m (entropy_of identifier password passcode size)
              strength cs k) as [HI HC]; [done|done|by rewrite HE|by rewrite <- Hsize|done..|].
  eauto 10.
Qed.

Lemma buildBins_index_bits m strength ws :
  validateStrength strength = None →
  (∀ w, w ∈ ws → is_Some (dict m !! w)) →
  buildBins m strength ws = (index_bits m ws, None).
Proof.
  intros Hv Hall. unfold buildBins. rewrite Hv.
  apply validate_None in Hall. rewrite Hall. by rewrite index_bits_fold.
Qed.

(** What [CalculateEntropy] and [IsValid] compute for a word sequence of a
    supported length whose words are all in the dictionary. *)
Lemma decode_run m ws strength cs k :
  generator m → shape (Z.of_nat (length ws)) strength cs k →
  (∀ w, w ∈ ws → is_Some (dict m !! w)) →
  let bits := index_bits m ws in
  let entropy := packed (str_take (Z.to_nat strength) bits) in
  CalculateEntropy m ws
    = Returns (if bool_decide (checksum_bits entropy cs = str_drop (Z.to_nat strength) bits)
               then (entropy, None) else ([], Some InvalidChecksum)) ∧
  IsValid m ws
    = Returns (bool_decide (checksum_bits entropy cs = str_drop (Z.to_nat strength) bits),
               None).
Proof.
  intros Hm Hs Hall. cbv zeta.
  pose proof (shape_facts _ _ _ _ Hs)
    as (_ & Hst & _ & Hval & Hsize & _ & Hpos & Hl8 & Hq32 & Hcs & Hk).
  destruct (index_bits_facts m ws Hm Hall) as [Hb Hl].
  unfold CalculateEntropy, IsValid.
  rewrite Hst, (buildBins_index_bits m strength ws Hval Hall).
  unfold _bitChunkSizeEntropy. rewrite Hq32.
  set (bits := index_bits m ws) in *.
  rewrite (str_slice_ok bits 0 strength) by (unfold len; lia).
  rewrite (str_slice_ok bits strength (len bits)) by (unfold len; lia).
  rewrite !bind_Returns, Z.sub_0_r. change (Z.to_nat 0) with 0%nat.
  rewrite str_drop_0.
  rewrite binToBytes_packed by (by apply is_bits_take).
  rewrite !bind_Returns, checksum_ok by lia. rewrite !bind_Returns.
  rewrite (str_take_all (Z.to_nat (len bits - strength)))
    by (rewrite str_length_drop; unfold len; lia).
  split; by case_bool_decide.
Qed.

(** C5: [CalculateEntropy] fails with [UnsupportedStrength 0] for a word
    count outside 12, 15, 18, 21, 24; otherwise with [UnrecognizedWord w] for
    a word [w] that is not in the dictionary; otherwise, the bits being the
    11-bit left-zero-padded indices of the words in order, with
    [InvalidChecksum] when the checksum recomputed over the first [strength]
    bits differs from the trailing [strength/32] bits, and otherwise it
    returns the first [strength] bits packed MSB-first into [strength/8]
    bytes. The errors of [IsValid] follow the same order; a checksum that
    does not match is its result [false] without an error. *)
Theorem CalculateEntropy_precedence (m : mnemonicer) (ws : list string) :
  generator m →
  let n := Z.of_nat (length ws) in
  let strength := strength_of n in
  let bits := index_bits m ws in
  let entropy := packed (str_take (Z.to_nat strength) bits) in
  let cs := checksum_bits entropy (Z.to_nat (strength `div` 32)) in
  (¬ supported_size n →
     CalculateEntropy m ws = Returns ([], Some (UnsupportedStrength 0)) ∧
     IsValid m ws = Returns (false, Some (UnsupportedStrength 0))) ∧
  (supported_size n → (∃ w, w ∈ ws ∧ dict m !! w = None) →
     ∃ w, w ∈ ws ∧ dict m !! w = None ∧
       CalculateEntropy m ws = Returns ([], Some (UnrecognizedWord w)) ∧
       IsValid m ws = Returns (false, Some (UnrecognizedWord w))) ∧
  (supported_size n → (∀ w, w ∈ ws → is_Some (dict m !! w)) →
     len bits = 11 * n ∧
     len (str_drop (Z.to_nat strength) bits) = strength `div` 32 ∧
     bits_msb entropy = str_take (Z.to_nat strength) bits ∧
     Z.of_nat (length entropy) = strength `div` 8 ∧
     (cs ≠ str_drop (Z.to_nat strength) bits →
        CalculateEntropy m ws = Returns ([], Some InvalidChecksum) ∧
        IsValid m ws = Returns (false, None)) ∧
     (cs = str_drop (Z.to_nat strength) bits →
        CalculateEntropy m ws = Returns (entropy, None) ∧
        IsValid m ws = Returns (true, None))).
Proof.
  intros Hm. cbv zeta. split; [|split].
  - intros Hs. unfold CalculateEntropy, IsValid, buildBins.
    by rewrite strength_unsupported, validateStrength_0.
  - intros Hs Hw. destruct (shape_supported _ Hs) as (strength & cs & k & Hsh).
    pose proof (shape_facts _ _ _ _ Hsh) as (_ & Hst & _ & Hval & _).
    destruct (validateWordsPrecense m ws) as [e|] eqn:He.
    + destruct (validate_Some m ws e He) as (w & -> & Hin & Hd).
      exists w. split; [done|]. split; [done|].
      unfold CalculateEntropy, IsValid, buildBins. by rewrite Hst, Hval, He.
    + destruct Hw as (w & Hin & Hd). rewrite validate_None in He.
      destruct (He w Hin) as [v Hv]. congruence.
  - intros Hs Hall. destruct (shape_supported _ Hs) as (strength & cs & k & Hsh).
    pose proof (shape_facts _ _ _ _ Hsh)
      as (_ & _ & Hso & _ & Hsize & _ & Hpos & Hl8 & Hq32 & Hcs & Hk).
    destruct (index_bits_facts m ws Hm Hall) as [Hb Hl].
    destruct (decode_run m ws strength cs k Hm Hsh Hall) as [HC HI].
    rewrite Hso.
    assert (strength `div` 32 = Z.of_nat cs) as Hd32
      by (rewrite <- Hq32, Z.quot_div_nonneg; lia).
    rewrite Hd32, Nat2Z.id.
    destruct (bits_msb_packed (Z.to_nat (strength `div` 8))
                (str_take (Z.to_nat strength) (index_bits m ws))) as [Hmsb Hlen].
    { by apply is_bits_take. }
    { rewrite str_length_take. lia. }
    split; [unfold len; lia|].
    split; [unfold len; rewrite str_length_drop; lia|].
    split; [done|]. split; [lia|]. split.
    + intros Hne. rewrite HC, HI. by rewrite !bool_decide_eq_false_2.
    + intros Heq. rewrite HC, HI. by rewrite !bool_decide_eq_true_2.
Qed.

End Claims.

(** ** The claims at concrete inputs *)

Lemma Generate_order_signed_passcode_witness :
  generator toy_mnemonicer ∧
  all_digits "+12345" = false ∧
  @Generate toy_primitives toy_mnemonicer "ab" "abcdefghijkl" "+12345" 13
    = Returns ([], Some (UnsupportedStrength 0)).
Proof.
  pose proof (dictionary_generator _ toy_dictionary) as Hm.
  split; [exact Hm|].
  destruct (@Generate_order_signed_passcode toy_primitives toy_mnemonicer
              "ab" "abcdefghijkl" "+12345" 13 Hm)
    as (_ & _ & _ & _ & _ & _ & Hsign & _).
  assert (2 ≤ len "ab") as Hi by (vm_compute; discriminate).
  assert (12 ≤ len "abcdefghijkl") as Hp by (vm_compute; discriminate).
  assert (len "+12345" = 6) as Hc by reflexivity.
  destruct (Hsign Hi Hp Hc "+"%char "12345" eq_refl (or_introl eq_refl) eq_refl)
    as (Hd & Hu & _).
  split; [exact Hd|]. apply Hu. unfold supported_size. lia.
Defined.

Lemma Generate_signed_passcode_witness :
  generator toy_mnemonicer ∧
  ∃ ws, @Generate toy_primitives toy_mnemonicer "ab" "abcdefghijkl" "+12345" 12
        = Returns (ws, None).
Proof.
  pose proof (dictionary_generator _ toy_dictionary) as Hm.
  split; [exact Hm|].
  apply (@Generate_signed_passcode toy_primitives toy_mnemonicer Hm).
Defined.

Lemma toy_valid_input : valid_input "ab" "abcdefghijkl" "012345" 12.
Proof. repeat split; try reflexivity. unfold supported_size. lia. Qed.

Lemma scrypt_error_dropped_is_nil_witness :
  passes_validation "ab" "abcdefghijkl" "012345" 12 ∧
  ∃ entropy,
    @deriveEntropy toy_primitives "ab" "abcdefghijkl" "012345" 12
      (map_get _sentenceStrengths 12) = Returns entropy.
Proof.
  pose proof (valid_input_passes _ _ _ _ toy_valid_input) as Hp.
  split; [exact Hp|].
  destruct (@scrypt_error_dropped_is_nil toy_primitives _ _ _ _ Hp)
    as (_ & _ & _ & _ & _ & _ & entropy & He & _).
  exists entropy. exact He.
Defined.

Lemma Generate_entropy_streams_witness :
  generator toy_mnemonicer ∧ valid_input "ab" "abcdefghijkl" "012345" 12 ∧
  ∃ entropy,
    @deriveEntropy toy_primitives "ab" "abcdefghijkl" "012345" 12
      (map_get _sentenceStrengths 12) = Returns entropy ∧
    length entropy = 16%nat.
Proof.
  pose proof (dictionary_generator _ toy_dictionary) as Hm.
  split; [exact Hm|]. split; [exact toy_valid_input|].
  destruct (@Generate_entropy_streams toy_primitives _ _ _ _ _ Hm toy_valid_input)
    as (_ & _ & _ & _ & entropy & He & _ & Hl & _).
  exists entropy. split; [exact He|exact Hl].
Defined.

Lemma Generate_word_indices_witness :
  generator toy_mnemonicer ∧ valid_input "ab" "abcdefghijkl" "012345" 12 ∧
  ∃ ws,
    @Generate toy_primitives toy_mnemonicer "ab" "abcdefghijkl" "012345" 12
      = Returns (ws, None) ∧
    Z.of_nat (length ws) = 12.
Proof.
  pose proof (dictionary_generator _ toy_dictionary) as Hm.
  split; [exact Hm|]. split; [exact toy_valid_input|].
  destruct (@Generate_word_indices toy_primitives _ _ _ _ _ Hm toy_valid_input)
    as (ws & Hg & Hl & _).
  exists ws. split; [exact Hg|exact Hl].
Defined.

Lemma IsValid_Generate_witness :
  dictionary toy_mnemonicer ∧ valid_input "ab" "abcdefghijkl" "012345" 12 ∧
  ∃ ws,
    @Generate toy_primitives toy_mnemonicer "ab" "abcdefghijkl" "012345" 12
      = Returns (ws, None) ∧
    @IsValid toy_primitives toy_mnemonicer ws = Returns (true, None).
Proof.
  split; [exact toy_dictionary|]. split; [exact toy_valid_input|].
  destruct (@IsValid_Generate toy_primitives _ _ _ _ _ toy_dictionary toy_valid_input)
    as (ws & entropy & Hg & Hi & _).
  exists ws. split; [exact Hg|exact Hi].
Defined.

Lemma CalculateEntropy_precedence_witness :
  generator toy_mnemonicer ∧
  @CalculateEntropy toy_primitives toy_mnemonicer ["a"; "b"]
    = Returns ([], Some (UnsupportedStrength 0)) ∧
  @IsValid toy_primitives toy_mnemonicer ["a"; "b"]
    = Returns (false, Some (UnsupportedStrength 0)).
Proof.
  pose proof (dictionary_generator _ toy_dictionary) as Hm.
  split; [exact Hm|].
  apply (@CalculateEntropy_precedence toy_primitives toy_mnemonicer ["a"; "b"] Hm).
  unfold supported_size. simpl. lia.
Defined.

Lemma checksum_first_bits_witness :
  4 ≤ 4 ≤ 8 ∧
  ∃ b digest, @sha256_Sum256 toy_primitives [1; 2; 3] = b :: digest ∧
    @checksum toy_primitives [1; 2; 3] 4
      = Returns (str_take (Z.to_nat 4) (byte_bits_msb b)).
Proof.
  assert (4 ≤ 4 ≤ 8) as Hs by lia.
  split; [exact Hs|].
  destruct (@checksum_first_bits toy_primitives [1; 2; 3] 4 Hs)
    as (b & digest & Hd & Hc & _).
  exists b, digest. split; [exact Hd|exact Hc].
Defined.

(** * Further properties of the code *)

(** ** Binary numerals *)

Lemma bit_of_range c : 0 ≤ bit_of c ≤ 1.
Proof. unfold bit_of. case_bool_decide; lia. Qed.

Lemma len_cons c s : len (String c s) = len s + 1.
Proof. unfold len. simpl. lia. Qed.

Lemma bits_value_range s : 0 ≤ bits_value s < 2 ^ len s.
Proof.
  induction s as [|c s IH]; [done|].
  cbn [bits_value]. rewrite len_cons, Z.pow_add_r by (pose proof (len_nonneg s); lia).
  pose proof (bit_of_range c). nia.
Qed.

Lemma bits_value_app s t :
  bits_value (s +:+ t) = bits_value s * 2 ^ len t + bits_value t.
Proof.
  induction s as [|c s IH]; [done|].
  rewrite str_cons_app. cbn [bits_value].
  rewrite IH, len_app, Z.pow_add_r by apply len_nonneg. lia.
Qed.

Lemma digit_val_bit c : is_bit c = true → digit_val c = Some (bit_of c).
Proof.
  unfold is_bit. intros [Hc|Hc]%orb_true_iff; apply bool_decide_eq_true in Hc;
    by subst c.
Qed.

Lemma parse_bits s : ∀ n,
  is_bits s = true → 0 ≤ n ≤ maxUint64 →
  parseUint_loop 2 s n =
    if bool_decide (n * 2 ^ len s + bits_value s ≤ maxUint64)
    then (n * 2 ^ len s + bits_value s, None)
    else (maxUint64, Some ErrRange).
Proof.
  induction s as [|c s IH]; intros n Hs Hn.
  - cbn [parseUint_loop bits_value]. change (len "") with 0.
    rewrite Z.pow_0_r, Z.mul_1_r, Z.add_0_r. by rewrite bool_decide_eq_true_2 by lia.
  - change (is_bits (String c s)) with (is_bit c && is_bits s) in Hs.
    apply andb_true_iff in Hs as [Hc Hs].
    cbn [parseUint_loop bits_value]. rewrite (digit_val_bit c Hc).
    pose proof (bit_of_range c) as Hb. pose proof (bits_value_range s) as Hv.
    pose proof (len_nonneg s) as Hl.
    assert (0 < 2 ^ len s) as Hpow by (apply Z.pow_pos_nonneg; lia).
    rewrite len_cons, Z.pow_add_r by lia.
    rewrite (bool_decide_eq_false_2 (2 ≤ bit_of c)) by lia.
    change (maxUint64 `quot` 2 + 1) with (2 ^ 63).
    unfold maxUint64 in *.
    destruct (decide (2 ^ 63 ≤ n)) as [Hbig|Hsmall].
    + rewrite (bool_decide_eq_true_2 _ Hbig).
      rewrite bool_decide_eq_false_2; [done|]. nia.
    + rewrite (bool_decide_eq_false_2 _ Hsmall).
      rewrite (bool_decide_eq_false_2 (2 ^ 64 - 1 < n * 2 + bit_of c)) by lia.
      rewrite IH by (done || lia).
      replace ((n * 2 + bit_of c) * 2 ^ len s + bits_value s)
        with (n * (2 ^ len s * 2 ^ 1) + (bit_of c * 2 ^ len s + bits_value s)) by lia.
      done.
Qed.

(** [binToInt] on a bit string of any length: its value, capped at the
    largest [int64]. *)
Lemma binToInt_bits s :
  is_bits s = true → binToInt s = bits_value s `min` (2 ^ 63 - 1).
Proof.
  intros Hs. destruct s as [|c s]; [done|].
  pose proof Hs as Hs'.
  change (is_bits (String c s)) with (is_bit c && is_bits s) in Hs'.
  apply andb_true_iff in Hs' as [Hc _].
  assert (c ≠ "-"%char ∧ c ≠ "+"%char) as [Hm Hp].
  { split; intros ->; by vm_compute in Hc. }
  unfold binToInt, ParseInt, ParseUint.
  rewrite !bool_decide_eq_false_2 by done. cbn [orb andb negb].
  rewrite parse_bits by (done || (unfold maxUint64; lia)).
  rewrite Z.mul_0_l, Z.add_0_l.
  pose proof (bits_value_range (String c s)) as Hv.
  unfold maxUint64. case_bool_decide as Hle.
  - case_bool_decide as Hcut; cbn [fst]; lia.
  - rewrite bool_decide_eq_true_2 by lia. cbn [fst]. lia.
Qed.

Lemma digit_val_not_bit c :
  is_bit c = false →
  match digit_val c with Some d => 2 ≤ d | None => True end.
Proof.
  destruct c as [[] [] [] [] [] [] [] []]; intros Hc;
    first [ discriminate Hc | by vm_compute ].
Qed.

Lemma parse_malformed s : ∀ n j,
  is_bits s = false → 0 ≤ j → 0 ≤ n < 2 ^ j → j + len s ≤ 64 →
  parseUint_loop 2 s n = (0, Some ErrSyntax).
Proof.
  induction s as [|c s IH]; intros n j Hs Hj Hn Hlen; [done|].
  change (is_bits (String c s)) with (is_bit c && is_bits s) in Hs.
  cbn [parseUint_loop]. rewrite len_cons in Hlen. pose proof (len_nonneg s) as Hl.
  destruct (is_bit c) eqn:Hc.
  - rewrite (digit_val_bit c Hc). pose proof (bit_of_range c) as Hb.
    rewrite (bool_decide_eq_false_2 (2 ≤ bit_of c)) by lia.
    change (maxUint64 `quot` 2 + 1) with (2 ^ 63). unfold maxUint64.
    assert (2 ^ j ≤ 2 ^ 63) as Hp by (apply Z.pow_le_mono_r; lia).
    rewrite !bool_decide_eq_false_2 by lia.
    apply (IH _ (j + 1)); [done|lia| |lia].
    rewrite Z.pow_add_r by lia. lia.
  - pose proof (digit_val_not_bit c Hc) as Hd.
    destruct (digit_val c) as [d|]; [|done].
    by rewrite bool_decide_eq_true_2.
Qed.

Lemma pos_bin_app p acc : pos_bin p acc = pos_bin p "" +:+ acc.
Proof.
  revert acc. induction p as [p IH|p IH|]; intros acc; cbn [pos_bin]; [| |done].
  - rewrite IH, (IH (String "1" "")). by rewrite str_app_assoc.
  - rewrite IH, (IH (String "0" "")). by rewrite str_app_assoc.
Qed.

Lemma pos_bin_facts p :
  is_bits (pos_bin p "") = true ∧ bits_value (pos_bin p "") = Z.pos p ∧
  2 ^ (len (pos_bin p "") - 1) ≤ Z.pos p.
Proof.
  assert (∀ q c, is_bit c = true →
            is_bits (pos_bin q "") = true ∧ bits_value (pos_bin q "") = Z.pos q ∧
            2 ^ (len (pos_bin q "") - 1) ≤ Z.pos q →
            is_bits (pos_bin q "" +:+ String c "") = true ∧
            bits_value (pos_bin q "" +:+ String c "") = 2 * Z.pos q + bit_of c ∧
            2 ^ (len (pos_bin q "" +:+ String c "") - 1) ≤ 2 * Z.pos q + bit_of c)
    as Hstep.
  { intros q c Hc (Hb & Hv & Hl).
    rewrite is_bits_app, bits_value_app, len_app, Hb, Hv.
    change (len (String c "")) with 1. cbn [is_bits bits_value]. rewrite Hc.
    change (len "") with 0. pose proof (bit_of_range c).
    split; [done|]. split; [lia|].
    pose proof (bits_value_range (pos_bin q "")) as Hr. rewrite Hv in Hr.
    assert (0 < len (pos_bin q "")) as Hpos.
    { destruct (decide (len (pos_bin q "") = 0)) as [Hz|Hz];
        [rewrite Hz in Hr; simpl in Hr; lia|pose proof (len_nonneg (pos_bin q "")); lia]. }
    replace (len (pos_bin q "") + 1 - 1) with (len (pos_bin q "") - 1 + 1) by lia.
    rewrite Z.pow_add_r by lia. lia. }
  induction p as [p IH|p IH|]; cbn [pos_bin]; [| |done]; rewrite pos_bin_app.
  - by apply (Hstep p "1"%char).
  - destruct (Hstep p "0"%char eq_refl IH) as (? & ? & ?).
    change (bit_of "0") with 0 in *. rewrite Z.add_0_r in *. done.
Qed.

Lemma zeros_facts n :
  is_bits (zeros n) = true ∧ bits_value (zeros n) = 0 ∧
  String.length (zeros n) = n.
Proof.
  induction n as [|n (IHb & IHv & IHl)]; [done|].
  cbn [zeros is_bits bits_value String.length]. rewrite IHb, IHv, IHl. done.
Qed.

(** The digits [fmt] prints for a natural number under ["%0<w>b"]. *)
Lemma sprintf_0b_facts (w : nat) n :
  0 ≤ n →
  is_bits (sprintf_0b w n) = true ∧ bits_value (sprintf_0b w n) = n ∧
  (w ≤ String.length (sprintf_0b w n))%nat ∧
  (n < 2 ^ Z.of_nat w → (1 ≤ w)%nat → String.length (sprintf_0b w n) = w).
Proof.
  intros Hn. unfold sprintf_0b, pad_zeros.
  rewrite bool_decide_eq_false_2 by lia.
  destruct (zeros_facts (w - String.length (bin_digits n))) as (Hzb & Hzv & Hzl).
  rewrite is_bits_app, bits_value_app, str_length_app, Hzb, Hzv, Hzl.
  destruct n as [|p|p]; [| |lia].
  - cbn [bin_digits]. split; [done|]. split; [done|]. simpl. lia.
  - cbn [bin_digits]. destruct (pos_bin_facts p) as (Hb & Hv & Hl).
    rewrite Hb, Hv. split; [done|]. split; [lia|]. split; [lia|].
    intros Hlt Hw. unfold len in Hl.
    assert (Z.of_nat (String.length (pos_bin p "")) - 1 < Z.of_nat w) as Hlen.
    { apply (Z.pow_lt_mono_r_iff 2); lia. }
    lia.
Qed.

Lemma bits_value_inj s : ∀ t,
  is_bits s = true → is_bits t = true → String.length s = String.length t →
  bits_value s = bits_value t → s = t.
Proof.
  induction s as [|c s IH]; intros [|d t] Hs Ht Hl Hv; try done.
  change (is_bits (String c s)) with (is_bit c && is_bits s) in Hs.
  change (is_bits (String d t)) with (is_bit d && is_bits t) in Ht.
  apply andb_true_iff in Hs as [Hc Hs]. apply andb_true_iff in Ht as [Hd Ht].
  simpl in Hl. injection Hl as Hl. cbn [bits_value] in Hv.
  assert (len s = len t) as Hlen by (unfold len; lia). rewrite Hlen in Hv.
  pose proof (bits_value_range s) as Hrs. pose proof (bits_value_range t) as Hrt.
  rewrite Hlen in Hrs.
  assert (bit_of c = bit_of d ∧ bits_value s = bits_value t) as [Hcd Hst].
  { pose proof (bit_of_range c). pose proof (bit_of_range d).
    assert (bit_of c = 0 ∨ bit_of c = 1) as [Hbc|Hbc] by lia;
      assert (bit_of d = 0 ∨ bit_of d = 1) as [Hbd|Hbd] by lia;
      rewrite Hbc, Hbd in *; lia. }
  f_equal; [|by apply IH].
  unfold is_bit in Hc, Hd. unfold bit_of in Hcd.
  apply orb_true_iff in Hc as [Hc|Hc]; apply orb_true_iff in Hd as [Hd|Hd];
    apply bool_decide_eq_true in Hc, Hd; subst c d; done.
Qed.

(** X1: [binToInt] reads a bit string of any length as its base-2 value,
    capped at the largest [int64]: the range error of [ParseInt] is dropped
    and its saturated value kept. Up to 63 bits the value is exact. *)
Theorem binToInt_saturates (s : string) :
  is_bits s = true →
  binToInt s = bits_value s `min` (2 ^ 63 - 1) ∧
  (len s ≤ 63 → binToInt s = bits_value s) ∧
  (2 ^ 63 ≤ bits_value s → binToInt s = 9223372036854775807).
Proof.
  intros Hs. rewrite (binToInt_bits s Hs).
  pose proof (bits_value_range s) as Hr. split; [done|]. split.
  - intros Hl.
    assert (2 ^ len s ≤ 2 ^ 63) by (apply Z.pow_le_mono_r; lia). lia.
  - intros Hv. lia.
Qed.

Lemma binToInt_saturates_witness :
  is_bits "00000000101" = true ∧ binToInt "00000000101" = 5.
Proof.
  split; [reflexivity|].
  destruct (binToInt_saturates "00000000101" eq_refl) as (_ & Hv & _).
  rewrite Hv; [reflexivity|]. vm_compute. discriminate.
Defined.

(** X2: [binToInt] drops the syntax error of [ParseInt]: a string of at
    most 64 characters after an optional sign that is empty or holds a
    character other than ['0'] and ['1'] reads as 0, as ["0"] does. *)
Theorem binToInt_malformed (s : string) :
  len (unsigned s) ≤ 64 →
  unsigned s = "" ∨ is_bits (unsigned s) = false →
  binToInt s = 0.
Proof.
  intros Hl Hs. unfold binToInt, ParseInt. destruct s as [|c s]; [done|].
  cbv zeta. unfold unsigned in Hl, Hs.
  destruct (bool_decide (c = "+"%char) || bool_decide (c = "-"%char)) eqn:Hsign.
  - assert (ParseUint s 2 = (0, Some ErrSyntax)) as ->; [|done].
    unfold ParseUint. destruct Hs as [->|Hs]; [done|].
    destruct s as [|d s]; [done|]. by apply (parse_malformed _ 0 0).
  - assert (ParseUint (String c s) 2 = (0, Some ErrSyntax)) as ->; [|done].
    unfold ParseUint. destruct Hs as [Hs|Hs]; [done|].
    by apply (parse_malformed _ 0 0).
Qed.

Lemma binToInt_malformed_witness :
  len (unsigned "0102") ≤ 64 ∧ is_bits (unsigned "0102") = false ∧
  binToInt "0102" = 0.
Proof.
  assert (len (unsigned "0102") ≤ 64) as Hl by (vm_compute; discriminate).
  split; [exact Hl|]. split; [reflexivity|].
  apply (binToInt_malformed "0102" Hl). right. reflexivity.
Defined.

(** X3: for [0 <= n < 2^63] and a width from 0 to 1000000 (where the verb
    ["%0<bits>b"] has a zero-padded width), [intToBin n bits] is a bit string
    of at least [bits] characters, of exactly [bits] characters when
    [n < 2^bits] and of more when [n >= 2^bits], and [binToInt] reads [n]
    back from it. *)
Theorem binToInt_intToBin (n bits : Z) :
  0 ≤ n < 2 ^ 63 → 0 ≤ bits ≤ 1000000 →
  is_bits (intToBin n bits) = true ∧
  bits ≤ len (intToBin n bits) ∧
  (1 ≤ bits → n < 2 ^ bits → len (intToBin n bits) = bits) ∧
  (2 ^ bits ≤ n → bits < len (intToBin n bits)) ∧
  binToInt (intToBin n bits) = n.
Proof.
  intros Hn Hb. unfold intToBin.
  destruct (sprintf_0b_facts (Z.to_nat bits) n) as (Hbits & Hv & Hge & Heq); [lia|].
  split; [done|]. split; [unfold len; lia|]. split; [|split].
  - intros H1 Hlt. unfold len. rewrite Heq; [lia| |lia].
    rewrite Z2Nat.id by lia. done.
  - intros Hle. pose proof (bits_value_range (sprintf_0b (Z.to_nat bits) n)) as Hr.
    rewrite Hv in Hr. apply (Z.pow_lt_mono_r_iff 2); [lia|apply len_nonneg|lia].
  - rewrite binToInt_bits, Hv by done. lia.
Qed.

Lemma binToInt_intToBin_witness :
  0 ≤ 2047 < 2 ^ 63 ∧ 0 ≤ 11 ≤ 1000000 ∧ binToInt (intToBin 2047 11) = 2047.
Proof.
  assert (0 ≤ 2047 < 2 ^ 63) as Hn by (split; [discriminate|reflexivity]).
  assert (0 ≤ 11 ≤ 1000000) as Hb by (split; discriminate).
  split; [exact Hn|]. split; [exact Hb|].
  apply (binToInt_intToBin 2047 11 Hn Hb).
Defined.

(** X4: [intToBin] undoes [binToInt] on a bit string of 1 to 63
    characters, formatted at the width of the string. *)
Theorem intToBin_binToInt (s : string) :
  is_bits s = true → 1 ≤ len s ≤ 63 →
  intToBin (binToInt s) (len s) = s.
Proof.
  intros Hs Hl. pose proof (bits_value_range s) as Hr.
  assert (2 ^ len s ≤ 2 ^ 63) by (apply Z.pow_le_mono_r; lia).
  rewrite binToInt_bits by done. rewrite Z.min_l by lia.
  unfold intToBin, len in *. rewrite Nat2Z.id.
  destruct (sprintf_0b_facts (String.length s) (bits_value s)) as (Hb & Hv & _ & Heq);
    [lia|].
  apply bits_value_inj; [done|done| |done].
  apply Heq; lia.
Qed.

Lemma intToBin_binToInt_witness :
  is_bits "00000000101" = true ∧ 1 ≤ len "00000000101" ≤ 63 ∧
  intToBin (binToInt "00000000101") (len "00000000101") = "00000000101".
Proof.
  assert (1 ≤ len "00000000101" ≤ 63) as Hl by (split; discriminate).
  split; [reflexivity|]. split; [exact Hl|].
  apply (intToBin_binToInt "00000000101" eq_refl Hl).
Defined.

(** ** Bytes and bits *)

Lemma str_take_app_len n s t :
  String.length s = n → str_take n (s +:+ t) = s.
Proof. intros <-. apply str_take_app. Qed.

Lemma str_drop_app_len n s t :
  String.length s = n → str_drop n (s +:+ t) = t.
Proof. intros <-. apply str_drop_app. Qed.

Lemma group_bytesToBin l : ∀ j b,
  Forall is_byte l → l !! j = Some b →
  group 8 (bytesToBin l) j = byte_bits_msb b.
Proof.
  induction l as [|b0 l IH]; intros j b Hl Hj; [done|].
  apply Forall_cons in Hl as [Hb0 Hl].
  destruct (byte_facts b0 Hb0) as (Heq & _ & Hlen & _).
  rewrite bytesToBin_cons. destruct j as [|j]; simpl in Hj.
  - injection Hj as <-. by rewrite group_0, str_take_app_len.
  - rewrite group_S, str_drop_app_len by done. by apply IH.
Qed.

Lemma bytesToBin_app l1 l2 :
  bytesToBin (l1 ++ l2) = bytesToBin l1 +:+ bytesToBin l2.
Proof.
  induction l1 as [|b l1 IH]; [done|].
  rewrite <- app_comm_cons, !bytesToBin_cons, IH. by rewrite str_app_assoc.
Qed.

Lemma packed_bytes n : ∀ s,
  is_bits s = true → String.length s = (8 * n)%nat → Forall is_byte (packed s).
Proof.
  induction n as [|n IH]; intros s Hs Hl.
  - destruct s; [by constructor|]. simpl in Hl. lia.
  - rewrite packed_step by lia. constructor.
    + rewrite pack_byte_full by (rewrite str_length_take; lia).
      pose proof (bits_value_range (str_take 8 s)) as Hr.
      unfold len in Hr. rewrite str_length_take in Hr.
      replace (8 `min` String.length s)%nat with 8%nat in Hr by lia. exact Hr.
    + apply IH; [by apply is_bits_drop|rewrite str_length_drop; lia].
Qed.

(** X5: [bytesToBin] writes each byte as 8 bits, most significant first,
    in the order of the bytes: the result is a bit string of [8 * len] bits
    whose [j]-th group of 8 is the MSB-first rendering of byte [j], and the
    bits of a concatenation are the concatenation of the bits. *)
Theorem bytesToBin_groups (l : list Z) :
  Forall is_byte l →
  is_bits (bytesToBin l) = true ∧
  len (bytesToBin l) = 8 * Z.of_nat (length l) ∧
  (∀ j b, l !! j = Some b → group 8 (bytesToBin l) j = byte_bits_msb b) ∧
  (∀ l1 l2, l = l1 ++ l2 → bytesToBin l = bytesToBin l1 +:+ bytesToBin l2).
Proof.
  intros Hl. split; [by apply bytesToBin_is_bits|]. split; [|split].
  - unfold len. rewrite bytesToBin_length by done. lia.
  - intros j b Hj. by apply group_bytesToBin.
  - intros l1 l2 ->. apply bytesToBin_app.
Qed.

Lemma bytesToBin_groups_witness :
  Forall is_byte [5; 255] ∧ bytesToBin [5; 255] = "0000010111111111".
Proof.
  assert (Forall is_byte [5; 255]) as Hl.
  { repeat constructor; discriminate. }
  split; [exact Hl|].
  destruct (bytesToBin_groups [5; 255] Hl) as (_ & _ & _ & Happ).
  rewrite (Happ [5] [255] eq_refl). reflexivity.
Defined.

(** X6: [binToBytes] undoes [bytesToBin]: packing the bits of a byte
    sequence returns the byte sequence. *)
Theorem binToBytes_after_bytesToBin (l : list Z) :
  Forall is_byte l → binToBytes (bytesToBin l) = Returns l.
Proof. apply binToBytes_bytesToBin. Qed.

Lemma binToBytes_after_bytesToBin_witness :
  Forall is_byte [70; 71; 47] ∧ binToBytes (bytesToBin [70; 71; 47]) = Returns [70; 71; 47].
Proof.
  assert (Forall is_byte [70; 71; 47]) as Hl.
  { repeat constructor; discriminate. }
  split; [exact Hl|]. apply (binToBytes_after_bytesToBin _ Hl).
Defined.

(** X7: [bytesToBin] undoes [binToBytes] on a bit string whose length is a
    multiple of 8: the packed bytes expand to the same bits. (For another
    length the partial last group comes back padded with zeros to 8 bits.) *)
Theorem bytesToBin_after_binToBytes (s : string) (n : nat) :
  is_bits s = true → String.length s = (8 * n)%nat →
  ∃ l, binToBytes s = Returns l ∧ length l = n ∧ Forall is_byte l ∧
       bytesToBin l = s.
Proof.
  intros Hs Hl. exists (packed s).
  destruct (bits_msb_packed n s Hs Hl) as [Hmsb Hlen].
  pose proof (packed_bytes n s Hs Hl) as Hb.
  split; [by apply binToBytes_packed|]. split; [done|]. split; [done|].
  by rewrite bytesToBin_bits_msb.
Qed.

Lemma bytesToBin_after_binToBytes_witness :
  is_bits "0000010111111111" = true ∧
  String.length "0000010111111111" = (8 * 2)%nat ∧
  ∃ l, binToBytes "0000010111111111" = Returns l ∧ length l = 2%nat.
Proof.
  split; [reflexivity|]. split; [reflexivity|].
  destruct (bytesToBin_after_binToBytes "0000010111111111" 2 eq_refl eq_refl)
    as (l & Hl & Hn & _).
  exists l. split; [exact Hl|exact Hn].
Defined.

(** ** [binToBytes] on any string *)

Lemma runes_length_le n : ∀ s,
  (String.length s ≤ n)%nat → (length (runes s) ≤ String.length s)%nat.
Proof.
  induction n as [|n IH]; intros s Hn.
  - destruct s; [done|]. simpl in Hn. lia.
  - destruct s as [|c0 s1]; [done|]. simpl in Hn.
    assert (∀ t, (String.length t ≤ String.length s1)%nat →
              (length (runes t) ≤ String.length s1)%nat) as Hrec.
    { intros t Ht. etrans; [apply IH; lia|done]. }
    cbn [runes]. cbv zeta. cbn [String.length].
    repeat case_match; cbn [length String.length] in *; subst;
      try (apply le_n_S, Hrec; cbn [String.length]; lia).
Qed.

Lemma binToBytes_step_total st v :
  0 ≤ count st ≤ 8 → 0 ≤ i st →
  (count st = 8 → i st < Z.of_nat (length (bs st))) →
  ∃ st', binToBytes_step st v = Returns st' ∧
    length (bs st') = length (bs st) ∧ 1 ≤ count st' ≤ 8 ∧ 0 ≤ i st' ∧
    8 * i st' + count st' = 8 * i st + count st + 1.
Proof.
  intros Hc Hi Hb. unfold binToBytes_step, _bitChunkSizeOneByte.
  case_bool_decide as H8.
  - rewrite store_ok by (done || by apply Hb). rewrite !bind_Returns.
    eexists. split; [done|]. cbn [bs count i]. rewrite length_insert.
    split; [done|]. lia.
  - rewrite bind_Returns. eexists. split; [done|]. cbn [bs count i].
    split; [done|]. lia.
Qed.

Lemma binToBytes_loop_total l : ∀ st,
  0 ≤ count st ≤ 8 → 0 ≤ i st →
  8 * i st + count st + Z.of_nat (length l) ≤ 8 * Z.of_nat (length (bs st)) →
  ∃ st', foldM binToBytes_step st l = Returns st' ∧
    length (bs st') = length (bs st) ∧ 0 ≤ count st' ≤ 8 ∧ 0 ≤ i st' ∧
    8 * i st' + count st' = 8 * i st + count st + Z.of_nat (length l) ∧
    (count st' = 0 → count st = 0 ∧ l = []).
Proof.
  induction l as [|v l IH]; intros st Hc Hi Hb.
  - exists st. cbn [foldM length]. split; [done|]. split; [done|]. split; [done|].
    split; [done|]. split; [lia|done].
  - cbn [length] in Hb.
    destruct (binToBytes_step_total st v Hc Hi) as (st1 & Hs & Hl1 & Hc1 & Hi1 & He1);
      [lia|].
    destruct (IH st1) as (st' & Hs' & Hl' & Hc' & Hi' & He' & Hz'); [lia|done| |].
    { rewrite Hl1. lia. }
    exists st'. cbn [foldM]. rewrite Hs, bind_Returns.
    split; [done|]. split; [congruence|]. split; [done|]. split; [done|].
    split; [cbn [length]; lia|]. intros Hz. apply Hz' in Hz. lia.
Qed.

(** X8: [binToBytes] returns on every string, whatever its characters:
    no index of the byte array it allocates is out of range. It returns
    [ceil(r/8)] bytes for the [r] runes of the string, so at most
    [ceil(len/8)]. *)
Theorem binToBytes_never_panics (s : string) :
  ∃ out, binToBytes s = Returns out ∧
    length out = ceil8 (length (runes s)) ∧
    (length out ≤ ceil8 (String.length s))%nat.
Proof.
  pose proof (runes_length_le _ s (le_n _)) as Hr.
  unfold binToBytes, make, _bitChunkSizeOneByte.
  assert (0 ≤ len s `quot` 8) as Hq by (apply Z.quot_pos; [apply len_nonneg|done]).
  assert (len s < 8 * (len s `quot` 8 + 1)) as Hlt.
  { rewrite Z.quot_div_nonneg by (done || apply len_nonneg).
    pose proof (Z.div_mod (len s) 8). pose proof (Z.mod_pos_bound (len s) 8). lia. }
  rewrite bool_decide_eq_true_2 by lia. rewrite bind_Returns.
  destruct (binToBytes_loop_total (runes s)
              {| bs := replicate (Z.to_nat (len s `quot` 8 + 1)) 0;
                 count := 0; i := 0; current := 0 |})
    as (st & Hs & Hl & Hc & Hi & He & Hz).
  { cbn [count]. lia. } { cbn [i]. lia. }
  { cbn [bs count i]. rewrite length_replicate. unfold len in *. lia. }
  cbn [bs count i] in Hl, He, Hz. rewrite length_replicate in Hl.
  rewrite Hs, bind_Returns. unfold binToBytes_finish, _bitChunkSizeOneByte.
  assert (∀ k : nat, 8 * i st + count st = Z.of_nat k → 1 ≤ count st →
            ceil8 k = Z.to_nat (i st + 1)) as Hceil.
  { intros k Hk H1. unfold ceil8. div8 (k + 7)%nat. lia. }
  assert (ceil8 (length (runes s)) ≤ ceil8 (String.length s))%nat as Hmono.
  { unfold ceil8. apply Nat.Div0.div_le_mono. lia. }
  case_bool_decide as Hne.
  - rewrite store_ok by (unfold len in *; lia). rewrite !bind_Returns.
    cbn [bs i]. rewrite length_insert.
    rewrite bool_decide_eq_true_2 by (unfold len in *; lia).
    eexists. split; [done|].
    rewrite length_take, length_insert, <- (Hceil (length (runes s))) by lia.
    unfold len in *. split; [|lia]. rewrite Nat.min_l; [done|].
    rewrite (Hceil (length (runes s))) by lia. lia.
  - rewrite bind_Returns.
    assert (count st = 0) as H0 by lia. destruct (Hz H0) as [_ Hnil].
    rewrite Hnil in *. cbn [length] in He.
    rewrite bool_decide_eq_true_2 by lia.
    eexists. split; [done|]. rewrite length_take.
    replace (Z.to_nat (i st)) with 0%nat by lia. done.
Qed.

(** ** Building the dictionary *)

Lemma build_dict_last ws : ∀ k d w v,
  build_dict ws k d !! w = Some v →
  (∃ j, ws !! j = Some w ∧ v = k + Z.of_nat j ∧
        ∀ j', (j < j')%nat → ws !! j' ≠ Some w) ∨
  ((w ∉ ws) ∧ d !! w = Some v).
Proof.
  induction ws as [|w0 ws IH]; intros k d w v Hv; cbn [build_dict] in Hv.
  - right. split; [apply not_elem_of_nil|done].
  - apply IH in Hv as [(j & Hj & -> & Hlast)|[Hnot Hv]].
    + left. exists (S j). split; [exact Hj|]. split; [lia|].
      intros [|j'] Hlt; [lia|]. apply Hlast. lia.
    + destruct (decide (w0 = w)) as [->|Hne].
      * rewrite lookup_insert_eq in Hv. injection Hv as <-.
        left. exists 0%nat. split; [done|]. split; [lia|].
        intros [|j'] Hlt; [lia|]. intros Hj'. apply Hnot. simpl in Hj'.
        by apply list_elem_of_lookup_2 in Hj'.
      * rewrite lookup_insert_ne in Hv by done. right. split; [|done].
        apply not_elem_of_cons. split; [congruence|done].
Qed.

(** X9: [New] refuses every list that does not have exactly 2048 words and
    accepts every list that does, duplicates included. The generator keeps
    the list as given; its map knows exactly the words of the list and maps
    each to the last position at which it stands. *)
Theorem New_dict_last_position (ws : list string) :
  (length ws ≠ 2048%nat → New ws = (None, Some WordlistSizeError)) ∧
  (length ws = 2048%nat →
     ∃ m, New ws = (Some m, None) ∧ words m = ws ∧
       (∀ w, is_Some (dict m !! w) ↔ w ∈ ws) ∧
       (∀ w v, dict m !! w = Some v →
          0 ≤ v < 2048 ∧ ws !! Z.to_nat v = Some w ∧
          ∀ j, (Z.to_nat v < j)%nat → ws !! j ≠ Some w)).
Proof.
  unfold New. split; intros Hl.
  - rewrite bool_decide_eq_true_2; [done|lia].
  - rewrite bool_decide_eq_false_2 by lia. eexists. split; [done|].
    cbn [words dict]. split; [done|]. split.
    + intros w. rewrite build_dict_is_Some, lookup_empty.
      split; [intros [?|[? ?]]; done|by left].
    + intros w v Hv. apply build_dict_last in Hv as [(j & Hj & -> & Hlast)|[_ Hv]];
        [|by rewrite lookup_empty in Hv].
      pose proof (lookup_lt_Some _ _ _ Hj). rewrite Z.add_0_l, Nat2Z.id.
      split; [lia|]. split; [done|]. exact Hlast.
Qed.

Lemma generator_lookup_inv m j w :
  dictionary m → dict m !! w = Some (Z.of_nat j) → words m !! j = Some w.
Proof.
  intros Hm Hv. apply dictionary_generator in Hm.
  destruct (generator_index m w _ Hm Hv) as [_ Hw]. by rewrite Nat2Z.id in Hw.
Qed.

(** X10: over a list of 2048 distinct words the list and the map of the
    generator are inverse to each other: word [w] stands at position [j] if
    and only if the map sends [w] to [j]; so two positions never share a
    word and every index from 0 to 2047 is the index of its word. *)
Theorem dictionary_bijection (m : mnemonicer) :
  dictionary m →
  (∀ j w, words m !! j = Some w ↔ dict m !! w = Some (Z.of_nat j)) ∧
  (∀ v w, dict m !! w = Some v → 0 ≤ v < 2048) ∧
  (∀ j, (j < 2048)%nat → ∃ w, words m !! j = Some w ∧ dict m !! w = Some (Z.of_nat j)).
Proof.
  intros Hm. split; [|split].
  - intros j w. split; [by apply dictionary_lookup|by apply generator_lookup_inv].
  - intros v w Hv. by destruct (generator_index m w v (dictionary_generator _ Hm) Hv).
  - intros j Hj. destruct (lookup_lt_is_Some_2 (words m) j) as [w Hw].
    { by rewrite dictionary_length. }
    exists w. split; [done|]. by apply dictionary_lookup.
Qed.

Lemma dictionary_bijection_witness :
  dictionary toy_mnemonicer ∧
  dict toy_mnemonicer !! "00000000101" = Some 5.
Proof.
  split; [exact toy_dictionary|].
  destruct (dictionary_bijection toy_mnemonicer toy_dictionary) as (Hb & _ & _).
  apply (Hb 5%nat "00000000101"). reflexivity.
Defined.

(** ** The strength tables *)

Lemma sentenceStrengths_Some size strength :
  _sentenceStrengths !! size = Some strength ↔
  (size = 12 ∧ strength = 128) ∨ (size = 15 ∧ strength = 160) ∨
  (size = 18 ∧ strength = 192) ∨ (size = 21 ∧ strength = 224) ∨
  (size = 24 ∧ strength = 256).
Proof.
  unfold _sentenceStrengths. rewrite !lookup_insert_Some, lookup_empty.
  assert (@None Z = Some strength ↔ False) as -> by done. lia.
Qed.

Lemma strengths_is_Some strength :
  is_Some (_strengths !! strength) ↔
  strength = 128 ∨ strength = 160 ∨ strength = 192 ∨ strength = 224 ∨ strength = 256.
Proof.
  unfold _strengths, is_Some. split.
  - intros [[] Hs]. rewrite !lookup_insert_Some, lookup_empty in Hs.
    assert (@None () = Some () ↔ False) as Hn by done. rewrite Hn in Hs.
    assert (() = () ↔ True) as Hu by done. rewrite !Hu in Hs. lia.
  - intros H. destruct_or!; subst; by eexists.
Qed.

(** X11: the two tables agree. The word counts with an entry in
    [_sentenceStrengths] are exactly 12, 15, 18, 21 and 24. Each maps to a
    strength [validateStrength] accepts, a multiple of 32 that with its
    [strength/32] checksum bits fills exactly 11 bits per word. The
    strengths [validateStrength] accepts are exactly the strengths of the
    word counts, each the strength of one word count only, and any other
    strength is refused with an error that carries it. *)
Theorem strength_tables_agree :
  (∀ size, is_Some (_sentenceStrengths !! size) ↔ supported_size size) ∧
  (∀ size strength, _sentenceStrengths !! size = Some strength →
     supported_size size ∧ validateStrength strength = None ∧
     strength = 32 * (size `quot` 3) ∧
     strength + strength `quot` 32 = 11 * size) ∧
  (∀ size, ¬ supported_size size → _sentenceStrengths !! size = None) ∧
  (∀ strength, validateStrength strength = None ↔
     ∃ size, _sentenceStrengths !! size = Some strength) ∧
  (∀ strength size size',
     _sentenceStrengths !! size = Some strength →
     _sentenceStrengths !! size' = Some strength → size = size') ∧
  (∀ strength,
     (∀ size, _sentenceStrengths !! size ≠ Some strength) →
     validateStrength strength = Some (UnsupportedStrength strength)).
Proof.
  assert (∀ size strength, _sentenceStrengths !! size = Some strength →
     supported_size size ∧ validateStrength strength = None ∧
     strength = 32 * (size `quot` 3) ∧
     strength + strength `quot` 32 = 11 * size) as Hentry.
  { intros size strength Hs. apply sentenceStrengths_Some in Hs.
    unfold supported_size. destruct_or!; destruct_and!; subst;
      (split; [tauto|done]). }
  split; [|split; [done|split; [|split; [|split]]]].
  - intros size. split.
    + intros [strength Hs]. by apply Hentry in Hs as [Hs _].
    + unfold supported_size. intros Hs. destruct_or!; subst; by eexists.
  - intros size Hs. destruct (_sentenceStrengths !! size) as [strength|] eqn:He;
      [|done].
    apply Hentry in He as [He _]. done.
  - intros strength. split.
    + intros Hv. unfold validateStrength in Hv.
      destruct (_strengths !! strength) as [u|] eqn:He; [|done].
      assert (is_Some (_strengths !! strength)) as Hs by (by rewrite He).
      apply strengths_is_Some in Hs.
      destruct_or!; subst; [exists 12|exists 15|exists 18|exists 21|exists 24]; done.
    + intros [size Hs]. by apply Hentry in Hs as (_ & Hs & _).
  - intros strength size size' Hs Hs'.
    apply sentenceStrengths_Some in Hs. apply sentenceStrengths_Some in Hs'. lia.
  - intros strength Hno. unfold validateStrength.
    destruct (_strengths !! strength) as [u|] eqn:He; [|done].
    assert (is_Some (_strengths !! strength)) as Hs by (by rewrite He).
    apply strengths_is_Some in Hs. exfalso.
    destruct_or!; subst;
      [apply (Hno 12)|apply (Hno 15)|apply (Hno 18)|apply (Hno 21)|apply (Hno 24)];
      done.
Qed.

(** ** Looking words up *)

(** X12: [validateWordsPrecense] accepts a word sequence exactly when
    every word is a key of the map, and otherwise reports the first word
    that is not: the words before it are all known. *)
Theorem validateWordsPrecense_first_missing (m : mnemonicer) (ws : list string) :
  (validateWordsPrecense m ws = None ↔ ∀ w, w ∈ ws → is_Some (dict m !! w)) ∧
  (∀ e, validateWordsPrecense m ws = Some e →
     ∃ pre w post, ws = pre ++ w :: post ∧ e = UnrecognizedWord w ∧
       dict m !! w = None ∧ ∀ w', w' ∈ pre → is_Some (dict m !! w')).
Proof.
  split; [apply validate_None|].
  induction ws as [|w0 ws IH]; intros e He; [done|]. cbn [validateWordsPrecense] in He.
  destruct (dict m !! w0) as [v|] eqn:Hw0.
  - destruct (IH e He) as (pre & w & post & -> & -> & Hw & Hpre).
    exists (w0 :: pre), w, post. split; [done|]. split; [done|]. split; [done|].
    intros w' [->|Hw']%elem_of_cons; [by rewrite Hw0|by apply Hpre].
  - injection He as <-. exists [], w0, ws. split; [done|]. split; [done|].
    split; [done|]. intros w' Hw'. by apply elem_of_nil in Hw'.
Qed.

(** ** Splitting a string *)

(** X13: [chunkSplit] with a positive size returns [len/size] chunks of
    exactly [size] characters, in order, whose concatenation is the string
    without the [len mod size] characters left at its end (the whole string
    when the size divides the length). A size of 0 panics; a negative size
    panics as soon as the string has [-size] characters and returns no chunk
    for a shorter one. *)
Theorem chunkSplit_drops_remainder (s : string) (size : Z) :
  (size = 0 → chunkSplit s size = Panics) ∧
  (0 < size →
     ∃ chunks, chunkSplit s size = Returns chunks ∧
       Z.of_nat (length chunks) = len s `div` size ∧
       (∀ j c, chunks !! j = Some c →
          len c = size ∧ c = group (Z.to_nat size) s j) ∧
       foldr String.append "" chunks
         = str_take (Z.to_nat (size * (len s `div` size))) s ∧
       (len s `mod` size = 0 → foldr String.append "" chunks = s)) ∧
  (size < 0 → - size ≤ len s → chunkSplit s size = Panics) ∧
  (size < 0 → len s < - size → chunkSplit s size = Returns []).
Proof.
  split; [|split; [|split]].
  - intros ->. done.
  - intros Hsize. pose proof (len_nonneg s) as Hl.
    set (n := Z.to_nat size). set (q := (String.length s `div` n)%nat).
    replace (chunkSplit s size) with (chunkSplit s (Z.of_nat n))
      by (unfold n; by rewrite Z2Nat.id by lia).
    rewrite chunkSplit_groups by (unfold n; lia). fold q.
    assert (len s `div` size = Z.of_nat q) as Hq.
    { unfold q, n, len. rewrite Nat2Z.inj_div, Z2Nat.id by lia. done. }
    assert (n * q ≤ String.length s)%nat as Hle.
    { unfold q. apply Nat.Div0.mul_div_le. }
    eexists. split; [done|]. rewrite length_fmap, length_seq.
    split; [lia|]. split; [|split].
    + intros j c Hj. rewrite list_lookup_fmap in Hj.
      destruct (seq 0 q !! j) as [j'|] eqn:Hj'; [|done].
      apply lookup_seq in Hj' as [-> Hlt]. injection Hj as <-. cbn [Nat.add].
      split; [|done]. destruct (group_decomp n s j) as (_ & _ & Hg); [nia|].
      unfold len. rewrite Hg. unfold n. lia.
    + rewrite Hq. replace (Z.to_nat (size * Z.of_nat q)) with (n * q)%nat
        by (unfold n; nia).
      rewrite <- (concat_groups n q (str_take (n * q) s))
        by (rewrite str_length_take; lia).
      f_equal. apply list_fmap_ext. intros i j Hj.
      apply lookup_seq in Hj as [-> Hj]. cbn [Nat.add].
      symmetry. apply group_take; [nia|lia].
    + intros Hmod. assert (String.length s = (n * q)%nat) as Hall.
      { pose proof (Z.div_mod (len s) size ltac:(lia)) as Hdm.
        rewrite Hmod, Hq in Hdm. unfold len, n in *. nia. }
      rewrite <- (concat_groups n q s Hall) at 2. done.
  - intros Hsize Hlen. unfold chunkSplit.
    rewrite bool_decide_eq_false_2 by lia. rewrite bool_decide_eq_true_2; [done|].
    replace size with (- (- size)) by lia. rewrite Z.quot_opp_r by lia.
    assert (1 ≤ len s `quot` (- size)); [|lia].
    rewrite Z.quot_div_nonneg by lia. apply Z.div_le_lower_bound; lia.
  - intros Hsize Hlen. unfold chunkSplit. pose proof (len_nonneg s) as Hl.
    assert (len s `quot` size = 0) as Hq.
    { replace size with (- (- size)) by lia. rewrite Z.quot_opp_r by lia.
      rewrite Z.quot_small by lia. done. }
    rewrite Hq. rewrite !bool_decide_eq_false_2 by lia. done.
Qed.

(** ** The checksum *)

Section Checksum.
Context `{Primitives}.

(** X14: [checksum] returns for every size from 0 to 8, with the first
    [size] bits of the first digest byte (none for size 0), and panics for
    every other size: the rendering of the byte has 8 characters and the
    slice is out of range. *)
Theorem checksum_bounds (entropy : list Z) (size : Z) :
  (0 ≤ size ≤ 8 →
     checksum entropy size = Returns (checksum_bits entropy (Z.to_nat size)) ∧
     len (checksum_bits entropy (Z.to_nat size)) = size ∧
     is_bits (checksum_bits entropy (Z.to_nat size)) = true) ∧
  (size < 0 ∨ 8 < size → checksum entropy size = Panics).
Proof.
  split.
  - intros Hs. pose proof (checksum_ok entropy (Z.to_nat size) ltac:(lia)) as Hc.
    rewrite Z2Nat.id in Hc by lia. split; [done|]. split.
    + unfold len. rewrite checksum_bits_length by lia. lia.
    + apply is_bits_checksum_bits.
  - intros Hs. unfold checksum.
    pose proof (sha256_Sum256_length entropy) as Hl.
    pose proof (sha256_Sum256_bytes entropy) as Hb.
    destruct (sha256_Sum256 entropy) as [|b sum]; [done|].
    apply Forall_cons in Hb as [Hb _].
    destruct (byte_facts b Hb) as (_ & _ & Hlen & _).
    rewrite (index_ok _ 0 b) by done. rewrite bind_Returns.
    unfold str_slice. rewrite bool_decide_eq_false_2; [done|].
    unfold len. rewrite Hlen. lia.
Qed.

End Checksum.

(** ** Decoding: every case *)

Lemma supported_size_dec n : supported_size n ∨ ¬ supported_size n.
Proof. unfold supported_size. lia. Qed.

Lemma group_index_bits m ws : ∀ j w,
  generator m → (∀ w, w ∈ ws → is_Some (dict m !! w)) → ws !! j = Some w →
  group 11 (index_bits m ws) j = sprintf_0b 11 (map_get (dict m) w).
Proof.
  induction ws as [|w0 ws IH]; intros j w Hm Hall Hj; [done|].
  destruct (Hall w0) as [v Hv]; [by left|].
  destruct (generator_index m w0 v Hm Hv) as [Hr _].
  destruct (index_facts v Hr) as [_ Hl].
  cbn [index_bits foldr]. fold (index_bits m ws).
  assert (String.length (sprintf_0b 11 (map_get (dict m) w0)) = 11%nat) as Hl0.
  { unfold map_get. by rewrite Hv. }
  destruct j as [|j]; simpl in Hj.
  - injection Hj as <-. by rewrite group_0, str_take_app_len.
  - rewrite group_S, str_drop_app_len by done. apply IH; [done| |done].
    intros w' Hw'. apply Hall. by right.
Qed.

Section Decoding.
Context `{Primitives}.

Lemma decode_cases m ws :
  generator m →
  (¬ supported_size (Z.of_nat (length ws)) ∧
   CalculateEntropy m ws = Returns ([], Some (UnsupportedStrength 0)) ∧
   IsValid m ws = Returns (false, Some (UnsupportedStrength 0))) ∨
  (∃ w, w ∈ ws ∧ dict m !! w = None ∧
     CalculateEntropy m ws = Returns ([], Some (UnrecognizedWord w)) ∧
     IsValid m ws = Returns (false, Some (UnrecognizedWord w))) ∨
  (∃ strength cs k,
     shape (Z.of_nat (length ws)) strength cs k ∧
     (∀ w, w ∈ ws → is_Some (dict m !! w)) ∧
     CalculateEntropy m ws
       = Returns (if bool_decide
                       (checksum_bits
                          (packed (str_take (Z.to_nat strength) (index_bits m ws))) cs
                        = str_drop (Z.to_nat strength) (index_bits m ws))
                  then (packed (str_take (Z.to_nat strength) (index_bits m ws)), None)
                  else ([], Some InvalidChecksum)) ∧
     IsValid m ws
       = Returns (bool_decide
                    (checksum_bits
                       (packed (str_take (Z.to_nat strength) (index_bits m ws))) cs
                     = str_drop (Z.to_nat strength) (index_bits m ws)),
                  None)).
Proof.
  intros Hm. destruct (supported_size_dec (Z.of_nat (length ws))) as [Hs|Hs].
  - right. destruct (shape_supported _ Hs) as (strength & cs & k & Hsh).
    pose proof (shape_facts _ _ _ _ Hsh) as (_ & Hst & _ & Hval & _).
    destruct (validateWordsPrecense m ws) as [e|] eqn:He.
    + left. destruct (validate_Some m ws e He) as (w & -> & Hin & Hd).
      exists w. split; [done|]. split; [done|].
      unfold CalculateEntropy, IsValid, buildBins. by rewrite Hst, Hval, He.
    + right. rewrite validate_None in He. exists strength, cs, k.
      split; [done|]. split; [done|].
      by apply (decode_run m ws strength cs k).
  - left. split; [done|]. unfold CalculateEntropy, IsValid, buildBins.
    by rewrite strength_unsupported, validateStrength_0.
Qed.

(** The entropy of a word sequence whose checksum matches encodes back to
    the word sequence. *)
Lemma reencode m ws strength cs k :
  generator m → shape (Z.of_nat (length ws)) strength cs k →
  (∀ w, w ∈ ws → is_Some (dict m !! w)) →
  checksum_bits (packed (str_take (Z.to_nat strength) (index_bits m ws))) cs
    = str_drop (Z.to_nat strength) (index_bits m ws) →
  Forall is_byte (packed (str_take (Z.to_nat strength) (index_bits m ws))) ∧
  Z.of_nat (8 * length (packed (str_take (Z.to_nat strength) (index_bits m ws))))
    = strength ∧
  sentence m (packed (str_take (Z.to_nat strength) (index_bits m ws))) cs (S k) = ws.
Proof.
  intros Hm Hsh Hall Hcs.
  pose proof (shape_facts _ _ _ _ Hsh)
    as (_ & _ & _ & _ & Hsize & _ & Hpos & Hl8 & Hq32 & Hcsr & Hk).
  destruct (index_bits_facts m ws Hm Hall) as [Hb Hl].
  set (bits := index_bits m ws) in *.
  set (entropy := packed (str_take (Z.to_nat strength) bits)) in *.
  destruct (bits_msb_packed (Z.to_nat (strength `div` 8))
              (str_take (Z.to_nat strength) bits)) as [Hmsb Hlen].
  { by apply is_bits_take. }
  { rewrite str_length_take. lia. }
  fold entropy in Hmsb, Hlen.
  assert (Forall is_byte entropy) as Hbytes.
  { apply (packed_bytes (Z.to_nat (strength `div` 8))); [by apply is_bits_take|].
    rewrite str_length_take. lia. }
  split; [done|]. split; [lia|].
  assert (sentence_bits entropy cs = bits) as Hsb.
  { unfold sentence_bits. rewrite Hmsb, Hcs. apply str_take_drop. }
  apply list_eq. intros j. unfold sentence. rewrite Hsb, list_lookup_fmap.
  destruct (decide (j < S k)%nat) as [Hj|Hj].
  - rewrite lookup_seq_lt by done. cbn [fmap option_fmap option_map Nat.add].
    destruct (lookup_lt_is_Some_2 ws j) as [w Hw]; [lia|]. rewrite Hw.
    unfold bits. rewrite (group_index_bits m ws j w Hm Hall Hw).
    destruct (Hall w) as [v Hv]; [by eapply list_elem_of_lookup_2|].
    destruct (generator_index m w v Hm Hv) as [Hr Hwv].
    unfold map_get. rewrite Hv. change (default 0 (Some v)) with v.
    destruct (sprintf_0b_facts 11 v) as (_ & Hval & _); [lia|].
    rewrite Hval. unfold word_at. by rewrite Hwv.
  - rewrite lookup_seq_ge by lia. rewrite lookup_ge_None_2 by lia. done.
Qed.

Lemma CalculateEntropy_success m ws entropy :
  generator m → CalculateEntropy m ws = Returns (entropy, None) →
  ∃ strength cs k,
    shape (Z.of_nat (length ws)) strength cs k ∧
    Forall is_byte entropy ∧ Z.of_nat (8 * length entropy) = strength ∧
    sentence m entropy cs (S k) = ws ∧
    IsValid m ws = Returns (true, None).
Proof.
  intros Hm Hc.
  destruct (decode_cases m ws Hm)
    as [(_ & Hc' & _)|[(w & _ & _ & Hc' & _)|(strength & cs & k & Hsh & Hall & Hc' & Hi)]];
    [congruence|congruence|].
  rewrite Hc' in Hc. case_bool_decide as Hcs; [|congruence].
  injection Hc as <-. exists strength, cs, k.
  destruct (reencode m ws strength cs k Hm Hsh Hall Hcs) as (Hb & Hl & Hs).
  split; [done|]. split; [done|]. split; [done|]. split; [done|].
  exact Hi.
Qed.

(** X15: over a generator [New] returned, [CalculateEntropy] and [IsValid]
    return on every word sequence (no slice or index is out of range) and
    agree: [IsValid] answers true exactly when [CalculateEntropy] returns an
    entropy; it answers false without an error exactly when
    [CalculateEntropy] fails with [InvalidChecksum]; and it reports an error
    exactly when [CalculateEntropy] fails with that error, which is then not
    [InvalidChecksum]. *)
Theorem IsValid_agrees_with_CalculateEntropy (m : mnemonicer) (ws : list string) :
  generator m →
  (∃ r, CalculateEntropy m ws = Returns r) ∧
  (∃ r, IsValid m ws = Returns r) ∧
  (IsValid m ws = Returns (true, None) ↔
     ∃ entropy, CalculateEntropy m ws = Returns (entropy, None)) ∧
  (IsValid m ws = Returns (false, None) ↔
     CalculateEntropy m ws = Returns ([], Some InvalidChecksum)) ∧
  (∀ e, IsValid m ws = Returns (false, Some e) ↔
     CalculateEntropy m ws = Returns ([], Some e) ∧ e ≠ InvalidChecksum) ∧
  (∀ e, IsValid m ws ≠ Returns (true, Some e)).
Proof.
  intros Hm.
  destruct (decode_cases m ws Hm)
    as [(_ & Hc & Hi)|[(w & _ & _ & Hc & Hi)|(strength & cs & k & _ & _ & Hc & Hi)]];
    rewrite Hc, Hi.
  - split; [by eexists|]. split; [by eexists|].
    split; [split; [done|by intros [? ?]]|]. split; [done|].
    split; [|done]. intros e. split; [by intros [= <-]|by intros [[= <-] _]].
  - split; [by eexists|]. split; [by eexists|].
    split; [split; [done|by intros [? ?]]|]. split; [done|].
    split; [|done]. intros e. split; [by intros [= <-]|by intros [[= <-] _]].
  - split; [by eexists|]. split; [by eexists|]. case_bool_decide.
    + split; [split; [by eexists|done]|]. split; [done|].
      split; [|done]. intros e. split; [done|by intros [? ?]].
    + split; [split; [done|by intros [? ?]]|]. split; [done|].
      split; [|done]. intros e. split; [done|]. by intros [[= <-] ?].
Qed.

(** X16: the entropy [CalculateEntropy] returns for a word sequence encodes
    back to the same word sequence: the encoding half of [Generate], run on
    that entropy with its [8 * len] bits as strength, returns the words it
    came from. The entropy has one of the five supported sizes, and
    [IsValid] accepts the words. No distinctness of the word list is
    needed. *)
Theorem encodeWords_after_CalculateEntropy (m : mnemonicer) (ws : list string)
    (entropy : list Z) :
  generator m → CalculateEntropy m ws = Returns (entropy, None) →
  encodeWords m entropy (8 * Z.of_nat (length entropy)) = Returns ws ∧
  8 * Z.of_nat (length entropy) = strength_of (Z.of_nat (length ws)) ∧
  supported_size (Z.of_nat (length ws)) ∧
  IsValid m ws = Returns (true, None).
Proof.
  intros Hm Hc.
  destruct (CalculateEntropy_success m ws entropy Hm Hc)
    as (strength & cs & k & Hsh & Hb & Hl & Hs & Hi).
  pose proof (shape_facts _ _ _ _ Hsh)
    as (Hsup & _ & Hso & _ & _ & _ & _ & _ & Hq32 & Hcsr & Hk).
  replace (8 * Z.of_nat (length entropy)) with strength by lia.
  split; [|done].
  rewrite (encodeWords_sentence m entropy strength cs k); try done.
  - by rewrite Hs.
  - by apply generator_length.
Qed.

(** X17: [CalculateEntropy] is injective on the word sequences it accepts:
    two word sequences with the same entropy are the same sequence. *)
Theorem CalculateEntropy_injective (m : mnemonicer) (ws1 ws2 : list string)
    (entropy : list Z) :
  generator m →
  CalculateEntropy m ws1 = Returns (entropy, None) →
  CalculateEntropy m ws2 = Returns (entropy, None) →
  ws1 = ws2.
Proof.
  intros Hm H1 H2.
  destruct (CalculateEntropy_success m ws1 entropy Hm H1)
    as (s1 & cs1 & k1 & Hsh1 & _ & Hl1 & Hs1 & _).
  destruct (CalculateEntropy_success m ws2 entropy Hm H2)
    as (s2 & cs2 & k2 & Hsh2 & _ & Hl2 & Hs2 & _).
  assert (s1 = s2) as <- by lia.
  assert (cs1 = cs2 ∧ k1 = k2) as [<- <-].
  { unfold shape in Hsh1, Hsh2. lia. }
  by rewrite <- Hs1, <- Hs2.
Qed.

End Decoding.

(** ** Generation: every case *)

Section Generation.
Context `{Primitives}.

Lemma Generate_cases m identifier password passcode size :
  generator m →
  (¬ passes_validation identifier password passcode size ∧
   ∃ e, Generate m identifier password passcode size = Returns ([], Some e)) ∨
  (passes_validation identifier password passcode size ∧
   ∃ strength cs k, shape size strength cs k ∧
     Generate m identifier password passcode size
     = Returns (sentence m (entropy_of identifier password passcode size) cs (S k),
                None)).
Proof.
  intros Hm.
  destruct (decide (passes_validation identifier password passcode size))
    as [Hp|Hp].
  { right. split; [done|]. pose proof Hp as (_ & _ & _ & _ & Hs).
    destruct (shape_supported _ Hs) as (strength & cs & k & Hsh).
    exists strength, cs, k. split; [done|].
    by apply (Generate_passes m _ _ _ _ strength cs k). }
  left. split; [done|]. unfold passes_validation in Hp.
  unfold Generate, _inputIdentifierMinLength, _inputPasswordMinLength,
    _inputPasscodeLength.
  case_bool_decide; [by eexists|]. case_bool_decide; [by eexists|].
  case_bool_decide; [by eexists|].
  destruct (snd (Atoi passcode)) eqn:Ha; [by eexists|].
  assert (¬ supported_size size) as Hs by (intros Hs; apply Hp; repeat split; try done; lia).
  rewrite strength_unsupported, validateStrength_0 by done. by eexists.
Qed.

Lemma sentence_words m entropy strength cs k :
  generator m → Forall is_byte entropy →
  Z.of_nat (8 * length entropy) = strength →
  (1 ≤ cs ≤ 8)%nat → strength + Z.of_nat cs = 11 * Z.of_nat (S k) →
  length (sentence m entropy cs (S k)) = S k ∧
  ∀ w, w ∈ sentence m entropy cs (S k) → w ∈ words m.
Proof.
  intros Hm Hb Hl Hcs Hk.
  destruct (sentence_bits_facts entropy strength cs k Hb Hl Hcs Hk)
    as (_ & Hbits & Hlen & _).
  unfold sentence. split; [by rewrite length_fmap, length_seq|].
  intros w Hw. apply list_elem_of_fmap in Hw as (j & -> & Hj).
  apply elem_of_seq in Hj.
  eapply list_elem_of_lookup_2, word_at_lookup; [done|by apply is_bits_group|].
  rewrite group_length, Hlen. lia.
Qed.

(** X18: over a generator [New] returned, [Generate] returns for every
    input: no index into the word list and no slice of the bit string is out
    of range. It returns no error exactly when the five checks pass; with an
    error it returns no words; without one it returns [size] words, each of
    them a word of the list the generator was built from. *)
Theorem Generate_never_panics (m : mnemonicer)
    (identifier password passcode : string) (size : Z) :
  generator m →
  ∃ ws err,
    Generate m identifier password passcode size = Returns (ws, err) ∧
    (err = None ↔ passes_validation identifier password passcode size) ∧
    (err ≠ None → ws = []) ∧
    (err = None →
       Z.of_nat (length ws) = size ∧ supported_size size ∧
       ∀ w, w ∈ ws → w ∈ words m).
Proof.
  intros Hm.
  destruct (Generate_cases m identifier password passcode size Hm)
    as [(Hp & e & ->)|(Hp & strength & cs & k & Hsh & ->)].
  - exists [], (Some e). split; [done|]. split; [by split|]. by split.
  - eexists _, None. split; [done|]. split; [by split|]. split; [done|].
    intros _.
    pose proof (shape_facts _ _ _ _ Hsh)
      as (Hsup & _ & _ & _ & Hsize & _ & Hpos & Hl8 & _ & Hcs & Hk).
    destruct (sentence_words m (entropy_of identifier password passcode size)
                strength cs k) as [Hlen Hin]; try done.
    + apply entropy_of_bytes.
    + rewrite (entropy_of_length _ _ _ _ _ _ _ Hsh). lia.
    + rewrite Hlen. split; [lia|]. by split.
Qed.

End Generation.

(** ** The bits of a word sequence *)

(** X19: for a generator [New] returned, a strength of the table and words
    that are all in the dictionary, [buildBins] returns a bit string of 11
    bits per word, and the [j]-th group of 11 bits, read as a number with
    [binToInt], indexes the [j]-th word in the word list. The strength is
    only looked up in the table: it is not compared with the number of
    words. *)
Theorem buildBins_words_back (m : mnemonicer) (strength : Z) (ws : list string) :
  generator m → is_Some (_strengths !! strength) →
  (∀ w, w ∈ ws → is_Some (dict m !! w)) →
  ∃ bins,
    buildBins m strength ws = (bins, None) ∧
    is_bits bins = true ∧ String.length bins = (11 * length ws)%nat ∧
    ∀ j w, ws !! j = Some w →
      0 ≤ binToInt (group 11 bins j) < 2048 ∧
      words m !! Z.to_nat (binToInt (group 11 bins j)) = Some w.
Proof.
  intros Hm Hs Hall. exists (index_bits m ws).
  assert (validateStrength strength = None) as Hv.
  { unfold validateStrength. by destruct Hs as [[] ->]. }
  split; [by apply buildBins_index_bits|].
  destruct (index_bits_facts m ws Hm Hall) as [Hb Hl].
  split; [done|]. split; [done|]. intros j w Hj.
  rewrite (group_index_bits m ws j w Hm Hall Hj).
  destruct (Hall w) as [v Hv']; [by eapply list_elem_of_lookup_2|].
  destruct (generator_index m w v Hm Hv') as [Hr Hw].
  unfold map_get. rewrite Hv'. change (default 0 (Some v)) with v.
  destruct (index_facts v Hr) as [Hvb Hvl].
  destruct (word_index_facts _ Hvb Hvl) as (_ & _ & ->).
  destruct (sprintf_0b_facts 11 v) as (_ & -> & _); [lia|]. by split.
Qed.

(** ** The further properties at concrete inputs *)

Lemma toy_generator : generator toy_mnemonicer.
Proof. exact (dictionary_generator _ toy_dictionary). Qed.

Lemma toy_present w : w ∈ replicate 12 "00000000000" → is_Some (dict toy_mnemonicer !! w).
Proof.
  intros Hw. apply elem_of_replicate in Hw as [-> _]. exists 0. by vm_compute.
Qed.

Lemma toy_decode :
  @CalculateEntropy toy_primitives toy_mnemonicer (replicate 12 "00000000000")
  = Returns (replicate 16 0, None).
Proof. by vm_compute. Qed.

Lemma IsValid_agrees_with_CalculateEntropy_witness :
  generator toy_mnemonicer ∧
  ∃ r, @IsValid toy_primitives toy_mnemonicer ["a"; "b"] = Returns r.
Proof.
  split; [exact toy_generator|].
  destruct (@IsValid_agrees_with_CalculateEntropy toy_primitives toy_mnemonicer
              ["a"; "b"] toy_generator) as (_ & Hr & _).
  exact Hr.
Defined.

Lemma encodeWords_after_CalculateEntropy_witness :
  generator toy_mnemonicer ∧
  @CalculateEntropy toy_primitives toy_mnemonicer (replicate 12 "00000000000")
    = Returns (replicate 16 0, None) ∧
  @encodeWords toy_primitives toy_mnemonicer (replicate 16 0) 128
    = Returns (replicate 12 "00000000000").
Proof.
  split; [exact toy_generator|]. split; [exact toy_decode|].
  destruct (@encodeWords_after_CalculateEntropy toy_primitives toy_mnemonicer
              (replicate 12 "00000000000") (replicate 16 0)
              toy_generator toy_decode) as (He & _).
  exact He.
Defined.

Lemma CalculateEntropy_injective_witness :
  generator toy_mnemonicer ∧
  @CalculateEntropy toy_primitives toy_mnemonicer (replicate 12 "00000000000")
    = Returns (replicate 16 0, None) ∧
  replicate 12 "00000000000" = replicate 12 "00000000000".
Proof.
  split; [exact toy_generator|]. split; [exact toy_decode|].
  exact (@CalculateEntropy_injective toy_primitives toy_mnemonicer
           (replicate 12 "00000000000") (replicate 12 "00000000000")
           (replicate 16 0) toy_generator toy_decode toy_decode).
Defined.

Lemma Generate_never_panics_witness :
  generator toy_mnemonicer ∧
  ∃ ws err,
    @Generate toy_primitives toy_mnemonicer "ab" "abcdefghijkl" "012345" 12
    = Returns (ws, err).
Proof.
  split; [exact toy_generator|].
  destruct (@Generate_never_panics toy_primitives toy_mnemonicer
              "ab" "abcdefghijkl" "012345" 12 toy_generator)
    as (ws & err & Hg & _).
  exists ws, err. exact Hg.
Defined.

Lemma buildBins_words_back_witness :
  generator toy_mnemonicer ∧ is_Some (_strengths !! 128) ∧
  ∃ bins,
    buildBins toy_mnemonicer 128 (replicate 12 "00000000000") = (bins, None) ∧
    String.length bins = 132%nat.
Proof.
  assert (is_Some (_strengths !! 128)) as Hs by (exists (); reflexivity).
  split; [exact toy_generator|]. split; [exact Hs|].
  destruct (buildBins_words_back toy_mnemonicer 128 (replicate 12 "00000000000")
              toy_generator Hs toy_present) as (bins & Hb & _ & Hl & _).
  exists bins. split; [exact Hb|exact Hl].
Defined.
